(** * Variability: a shallow embedding of [Variability.py]

    The light-curve engine of sims_photUtils, modelled over the real numbers
    (numpy float arithmetic read as exact arithmetic).  Python exceptions are
    the [Err] branch of [result]; the mutable engine instance (template cache,
    cache flag, files read, the global numpy random generator) is the state of
    the monad [M], and a Python exception leaves the state changes made before
    it in place.  Dictionaries are association lists in insertion order. *)

From Stdlib Require Import Reals Lra Lia List String ZArith Bool Permutation Sorted.
Import ListNotations.
Open Scope R_scope.

(** ** Python values, exceptions and the error monad *)

Inductive pyexc :=
| InvalidParameters  (* the [raise("WARNING: ...")] of applyAgn; Python 2 refuses to
                        raise a string and raises TypeError there, so this tag only
                        keeps that branch apart from the other TypeErrors *)
| TypeError
| ValueError
| KeyError
| IndexError
| IOError
| OverflowError
| ZeroDivisionError.

Inductive result (A : Type) : Type :=
| Ok (a : A)
| Err (e : pyexc).
Arguments Ok {A} a.
Arguments Err {A} e.

Definition rbind {A B} (m : result A) (f : A -> result B) : result B :=
  match m with Ok a => f a | Err e => Err e end.

Notation "x <- m ;; k" := (rbind m (fun x => k))
  (at level 61, m at next level, right associativity).

Fixpoint mapE {A B} (f : A -> result B) (l : list A) : result (list B) :=
  match l with
  | [] => Ok []
  | a :: l' => b <- f a ;; bs <- mapE f l' ;; Ok (b :: bs)
  end.

(** Values found in a decoded parameter mapping. *)
Inductive pyval :=
| PyNum (r : R)
| PyInt (z : Z)
| PyStr (s : string)
| PyBool (b : bool).

(** ** Dictionaries with string keys, in insertion order *)

Module Dict.
Definition t (A : Type) := list (string * A).

Fixpoint get {A} (k : string) (d : t A) : option A :=
  match d with
  | [] => None
  | (k', v) :: d' => if String.eqb k k' then Some v else get k d'
  end.

(** [d[k] = v]: overwrite in place, or append a new key. *)
Fixpoint set {A} (k : string) (v : A) (d : t A) : t A :=
  match d with
  | [] => [(k, v)]
  | (k', v') :: d' => if String.eqb k k' then (k, v) :: d' else (k', v') :: set k v d'
  end.

Definition keys {A} (d : t A) : list string := map fst d.

(** [for k in d: out[k] = f(d[k])], stopping at the first exception. *)
Fixpoint mapE {A B} (f : A -> result B) (d : t A) : result (t B) :=
  match d with
  | [] => Ok []
  | (k, v) :: d' => w <- f v ;; d'' <- mapE f d' ;; Ok ((k, w) :: d'')
  end.

Definition fmap {A B} (f : A -> B) (d : t A) : t B :=
  map (fun kv => (fst kv, f (snd kv))) d.
End Dict.

(** [params[key]] *)
Definition getitem (params : Dict.t pyval) (key : string) : result pyval :=
  match Dict.get key params with Some v => Ok v | None => Err KeyError end.

(** A parameter used directly in float arithmetic. *)
Definition as_num (v : pyval) : result R :=
  match v with
  | PyNum r => Ok r
  | PyInt z => Ok (IZR z)
  | PyBool b => Ok (if b then 1 else 0)
  | PyStr _ => Err TypeError
  end.

(** [float(params[key])].  Strings are not parsed in this model: every string
    raises ValueError here, where Python's [float("3.5")] succeeds. *)
Definition get_float (params : Dict.t pyval) (key : string) : result R :=
  v <- getitem params key ;;
  match v with PyStr _ => Err ValueError | _ => as_num v end.

Definition get_num (params : Dict.t pyval) (key : string) : result R :=
  v <- getitem params key ;; as_num v.

Definition get_str (params : Dict.t pyval) (key : string) : result string :=
  v <- getitem params key ;;
  match v with PyStr s => Ok s | _ => Err TypeError end.

(** Python truth value of a parameter. *)
Definition truthy (v : pyval) : bool :=
  match v with
  | PyNum r => if Req_EM_T r 0 then false else true
  | PyInt z => negb (Z.eqb z 0)
  | PyStr s => negb (String.eqb s EmptyString)
  | PyBool b => b
  end.

(** ** Numeric helpers *)

(** [math.floor] on reals: [up x] is the least integer strictly above [x]. *)
Definition floorZ (x : R) : Z := (up x - 1)%Z.
Definition ceilZ (x : R) : Z := (- floorZ (- x))%Z.

(** numpy [a // b] read in exact arithmetic. *)
Definition floordiv (a b : R) : R := IZR (floorZ (a / b)).

Definition log10 (x : R) : R := ln x / ln 10.

Definition band_names : list string := ["u"; "g"; "r"; "i"; "z"; "y"]%string.

(** Elementwise numpy operations on arrays of equal length. *)
Definition vadd (a b : list R) : list R := map (fun p => fst p + snd p) (combine a b).
Definition vsub (a b : list R) : list R := map (fun p => fst p - snd p) (combine a b).
Definition vscale (c : R) (a : list R) : list R := map (fun x => c * x) a.

(** [lst[-1]] and [lst[i]] *)
Definition last_item (l : list R) : result R :=
  match l with [] => Err IndexError | x :: l' => Ok (last l' x) end.
Definition item (l : list R) (i : nat) : result R :=
  match nth_error l i with Some x => Ok x | None => Err IndexError end.
Definition column (lc : list (list R)) (i : nat) : result (list R) :=
  match nth_error lc i with Some c => Ok c | None => Err IndexError end.

(** [numpy.linspace(a, b, n)] with the endpoint included. *)
Definition linspace (a b : R) (n : nat) : list R :=
  match n with
  | O => []
  | S O => [a]
  | S m => map (fun i => a + INR i * (b - a) / INR m) (seq 0 n)
  end.

(** ** scipy's [interp1d] (linear, [bounds_error=True]) *)

(** Segment search as [searchsorted(x, q)]: the first segment whose right end
    is at or beyond [q]. *)
Fixpoint interp_seg (xs ys : list R) (q : R) : option R :=
  match xs, ys with
  | x0 :: ((x1 :: _) as xs'), y0 :: ((y1 :: _) as ys') =>
      if Rle_dec q x1 then Some (y0 + (q - x0) * (y1 - y0) / (x1 - x0))
      else interp_seg xs' ys' q
  | _, _ => None
  end.

(** The call of an [interp1d] object.  scipy first sorts [x] (its default
    [assume_sorted=False]); the search here takes [x] as given, so it agrees
    with scipy on templates whose time column is increasing. *)
Definition interp1d_call (xs ys : list R) (q : R) : result R :=
  match xs with
  | [] => Err ValueError
  | x0 :: xs' =>
      if Rlt_dec q x0 then Err ValueError
      else if Rlt_dec (last xs' x0) q then Err ValueError
      else match interp_seg xs ys q with Some v => Ok v | None => Err ValueError end
  end.

(** An interpolator object: [interp1d] or a caller-supplied factory
    (scipy's [InterpolatedUnivariateSpline]) named by a string. *)
Inductive interp_kind :=
| Interp1d
| Factory (name : string).

Record spline := { sp_kind : interp_kind; sp_x : list R; sp_y : list R }.

Record cache_entry := { ce_splines : Dict.t spline; ce_period : R }.

(** ** The engine monad: state and Python exceptions *)

Definition SM (S A : Type) := S -> result A * S.
Definition sret {S A} (a : A) : SM S A := fun st => (Ok a, st).
Definition sbind {S A B} (m : SM S A) (f : A -> SM S B) : SM S B := fun st =>
  match m st with
  | (Ok a, st') => f a st'
  | (Err e, st') => (Err e, st')
  end.
Definition lift {S A} (r : result A) : SM S A := fun st => (r, st).

Notation "x <<- m ;; k" := (sbind m (fun x => k))
  (at level 61, m at next level, right associativity).

(** Python's [s[:-n]] *)
Definition drop_last (n : nat) (s : string) : string :=
  substring 0 (String.length s - n) s.

Definition IUS : string := "InterpolatedUnivariateSpline".

Section Engine.

(** The scipy spline factories: whether a factory accepts the data, and the
    value of the fitted spline at a point. *)
Variable factory_ok : string -> list R -> list R -> bool.
Variable factory_eval : string -> list R -> list R -> R -> R.

(** numpy's global random generator: [numpy.random.seed(n)] sets it to
    [rng_seed n]; one standard-normal draw is [rng_normal]. *)
Variable rng_t : Type.
Variable rng_seed : Z -> rng_t.
Variable rng_normal : rng_t -> R * rng_t.

(** The attributes of a [Variability] instance that the evaluators touch, the
    template files under [variabilityDataDir], the files read so far, and
    numpy's global generator. *)
Record state := {
  disk : Dict.t (list (list R));
  lc_cache : Dict.t cache_entry;       (* variabilityLcCache *)
  do_cache : bool;                     (* variabilityCache *)
  reads : list string;
  rng : rng_t
}.

Definition M := SM state.

Definition with_reads (st : state) (r : list string) : state :=
  {| disk := disk st; lc_cache := lc_cache st; do_cache := do_cache st;
     reads := r; rng := rng st |}.
Definition with_cache (st : state) (c : Dict.t cache_entry) : state :=
  {| disk := disk st; lc_cache := c; do_cache := do_cache st;
     reads := reads st; rng := rng st |}.
Definition with_rng (st : state) (g : rng_t) : state :=
  {| disk := disk st; lc_cache := lc_cache st; do_cache := do_cache st;
     reads := reads st; rng := g |}.

(** [initializeVariability(doCache)]: empty cache, flag set. *)
Definition initializeVariability (doCache : bool) (files : Dict.t (list (list R)))
    (g : rng_t) : state :=
  {| disk := files; lc_cache := []; do_cache := doCache; reads := []; rng := g |}.

(** [numpy.loadtxt(dir + "/" + filename, unpack=True)]: the columns. *)
Definition loadtxt (filename : string) : M (list (list R)) := fun st =>
  let st' := with_reads st (filename :: reads st) in
  match Dict.get filename (disk st) with
  | Some lc => (Ok lc, st')
  | None => (Err IOError, st')
  end.

(** [interpFactory(x, y)] when a factory is given, [interp1d(x, y)] otherwise. *)
Definition mk_spline (interpFactory : option string) (xs ys : list R) : result spline :=
  match interpFactory with
  | None =>
      if (List.length xs <? 2)%nat then Err ValueError
      else if negb (Nat.eqb (List.length xs) (List.length ys)) then Err ValueError
      else Ok {| sp_kind := Interp1d; sp_x := xs; sp_y := ys |}
  | Some f =>
      if factory_ok f xs ys then Ok {| sp_kind := Factory f; sp_x := xs; sp_y := ys |}
      else Err ValueError
  end.

Definition call_spline (s : spline) (q : R) : result R :=
  match sp_kind s with
  | Interp1d => interp1d_call (sp_x s) (sp_y s) q
  | Factory f => Ok (factory_eval f (sp_x s) (sp_y s) q)
  end.

Definition call_spline_arr (s : spline) (qs : list R) : result (list R) :=
  mapE (call_spline s) qs.

(** [splines['u'] = mk(lc[0], lc[1]); ...; splines['y'] = mk(lc[0], lc[6])] *)
Definition band_columns : list (string * nat) :=
  [("u", 1%nat); ("g", 2%nat); ("r", 3%nat); ("i", 4%nat); ("z", 5%nat); ("y", 6%nat)]%string.

Fixpoint build_splines_from (interpFactory : option string) (t : list R)
    (lc : list (list R)) (bc : list (string * nat)) (acc : Dict.t spline)
    : result (Dict.t spline) :=
  match bc with
  | [] => Ok acc
  | (b, j) :: bc' =>
      c <- column lc j ;;
      s <- mk_spline interpFactory t c ;;
      build_splines_from interpFactory t lc bc' (Dict.set b s acc)
  end.

Definition build_splines (interpFactory : option string) (t : list R)
    (lc : list (list R)) : result (Dict.t spline) :=
  build_splines_from interpFactory t lc band_columns [].

(** [dt = lc[0][1] - lc[0][0]; period = lc[0][-1] + dt], or the override. *)
Definition template_period (inPeriod : option R) (t : list R) : result R :=
  match inPeriod with
  | None => t1 <- item t 1 ;; t0 <- item t 0 ;; tl <- last_item t ;; Ok (tl + (t1 - t0))
  | Some p => Ok p
  end.

(** [if self.variabilityCache: self.variabilityLcCache[filename] = ...] *)
Definition store_cache (filename : string) (ce : cache_entry) : M unit := fun st =>
  (Ok tt, if do_cache st then with_cache st (Dict.set filename ce (lc_cache st)) else st).

(** The [else] branch of the cache test in [applyStdPeriodic]: read the
    file, fix the period, build the six interpolators, cache them if enabled. *)
Definition load_from_disk (filename : string) (inPeriod : option R) (inDays : bool)
    (interpFactory : option string) : M (Dict.t spline * R) :=
  lc <<- loadtxt filename ;;
  t <<- lift (column lc 0) ;;
  period <<- lift (template_period inPeriod t) ;;
  let t' := if inDays then map (fun x => x / period) t else t in
  splines <<- lift (build_splines interpFactory t' lc) ;;
  u <<- store_cache filename {| ce_splines := splines; ce_period := period |} ;;
  sret (splines, period).

(** [if self.variabilityLcCache.has_key(filename): ... else: ...] *)
Definition load_template (filename : string) (inPeriod : option R) (inDays : bool)
    (interpFactory : option string) : M (Dict.t spline * R) := fun st =>
  match Dict.get filename (lc_cache st) with
  | Some ce => (Ok (ce_splines ce, ce_period ce), st)
  | None => load_from_disk filename inPeriod inDays interpFactory st
  end.

(** [phase = epoch/period - epoch//period].  Division is the total one of
    the reals ([x/0 = 0]); at [period = 0] numpy gives inf and nan instead. *)
Definition phase (epoch period : R) : R := epoch / period - floordiv epoch period.

(** [applyStdPeriodic(params, keymap, inPeriod, inDays, interpFactory)];
    [kfile] and [kt0] are [keymap['filename']] and [keymap['t0']], [expmjd] is
    [obs_metadata.metadata['Opsim_expmjd'][0]]. *)
Definition applyStdPeriodic (params : Dict.t pyval) (kfile kt0 : string)
    (inPeriod : option R) (inDays : bool) (interpFactory : option string)
    (expmjd : list R) : M (Dict.t (list R)) :=
  filename <<- lift (get_str params kfile) ;;
  toff <<- lift (get_float params kt0) ;;
  let epoch := map (fun e => e - toff) expmjd in
  sp <<- load_template filename inPeriod inDays interpFactory ;;
  let phases := map (fun e => phase e (snd sp)) epoch in
  lift (Dict.mapE (fun s => call_spline_arr s phases) (fst sp)).

(** [applyMflare]; the rewritten file name is also written back into the
    caller's [params].  [params['length']] is read as a number before the
    template is looked up; the source passes it on unconverted and uses it
    only on a cache miss, so a non-numeric length that the source lets pass
    on a cache hit raises TypeError here. *)
Definition applyMflare (params : Dict.t pyval) (expmjd : list R) : M (Dict.t (list R)) :=
  fname <<- lift (get_str params "lcfilename") ;;
  let params' := Dict.set "lcfilename"
                   (PyStr ("mflare/" ++ drop_last 5 fname ++ "1.dat")%string) params in
  len <<- lift (get_num params' "length") ;;
  magoff <<- applyStdPeriodic params' "lcfilename" "t0" (Some len) true None expmjd ;;
  sret (Dict.fmap (map Ropp) magoff).

Definition applyRRly (params : Dict.t pyval) (expmjd : list R) : M (Dict.t (list R)) :=
  applyStdPeriodic params "filename" "tStartMjd" None true (Some IUS) expmjd.

(** [params['period']] is read as a number up front; the source passes it on
    unconverted and, with a cached template, never uses it, so a non-numeric
    period that the source lets pass on a cache hit raises TypeError here. *)
Definition applyCepheid (params : Dict.t pyval) (expmjd : list R) : M (Dict.t (list R)) :=
  p <<- lift (get_num params "period") ;;
  applyStdPeriodic params "lcfile" "t0" (Some p) false (Some IUS) expmjd.

Definition applyEb (params : Dict.t pyval) (expmjd : list R) : M (Dict.t (list R)) :=
  dMags <<- applyStdPeriodic params "lcfile" "t0" None true (Some IUS) expmjd ;;
  sret (Dict.fmap (map (fun x => -2.5 * log10 x)) dMags).

(** ** Analytic models *)

(** [dMags[b] = v] for the six bands in the source's order. *)
Definition all_bands (v : list R) : Dict.t (list R) :=
  fold_left (fun d b => Dict.set b v d) band_names [].

(** Impact parameter [u = sqrt(umin**2 + (2.0*epoch/that)**2)].  At
    [that = 0] the real division gives [0] where numpy gives inf or nan; the
    theorems about the lens models assume [that <> 0]. *)
Definition lens_u (umin that epoch : R) : R := sqrt (umin ^ 2 + (2 * epoch / that) ^ 2).

(** [applyMicrolens]: point-lens magnification. *)
Definition microlens_dmag (umin that epoch : R) : R :=
  let u := lens_u umin that epoch in
  -2.5 * log10 ((u ^ 2 + 2) / (u * sqrt (u ^ 2 + 4))).

(** [applyMicrolensing]: the variant magnification [(u + 2)/(u*sqrt(u**2 + 4))]. *)
Definition microlensing_dmag (umin that epoch : R) : R :=
  let u := lens_u umin that epoch in
  -2.5 * log10 ((u + 2) / (u * sqrt (u ^ 2 + 4))).

Definition applyMicrolens (params : Dict.t pyval) (expmjd : list R) : M (Dict.t (list R)) :=
  t0 <<- lift (get_num params "t0") ;;
  umin <<- lift (get_num params "umin") ;;
  that <<- lift (get_num params "that") ;;
  let epochs := map (fun e => e - t0) expmjd in
  sret (all_bands (map (microlens_dmag umin that) epochs)).

Definition applyMicrolensing (params : Dict.t pyval) (expmjd : list R) : M (Dict.t (list R)) :=
  t0 <<- lift (get_num params "t0") ;;
  umin <<- lift (get_num params "umin") ;;
  that <<- lift (get_num params "that") ;;
  let epochs := map (fun e => e - t0) expmjd in
  sret (all_bands (map (microlensing_dmag umin that) epochs)).

(** ** The AGN damped random walk *)

(** Python's builtin [min] / [max], and numpy's [.min()] / [.max()]. *)
Definition pymin (l : list R) : result R :=
  match l with [] => Err ValueError | x :: l' => Ok (fold_left Rmin l' x) end.
Definition pymax (l : list R) : result R :=
  match l with [] => Err ValueError | x :: l' => Ok (fold_left Rmax l' x) end.

(** [int(x)] of a float: truncation toward zero. *)
Definition trunc (r : R) : Z := if Rle_dec 0 r then floorZ r else ceilZ r.

Definition py_int (v : pyval) : result Z :=
  match v with
  | PyInt z => Ok z
  | PyNum r => Ok (trunc r)
  | PyBool b => Ok (if b then 1%Z else 0%Z)
  | PyStr _ => Err ValueError
  end.

(** [int(math.ceil(a / b))] with [a] a numpy float: a zero divisor yields an
    infinity or a NaN, which [int] refuses. *)
Definition int_ceil_div (a b : R) : result Z :=
  if Req_EM_T b 0 then (if Req_EM_T a 0 then Err ValueError else Err OverflowError)
  else Ok (ceilZ (a / b)).

(** [numpy.random.seed(seed)] *)
Definition np_seed (seed : Z) : M unit := fun st =>
  if ((seed <? 0) || (4294967296 <=? seed))%Z then (Err ValueError, st)
  else (Ok tt, with_rng st (rng_seed seed)).

Fixpoint draw_normals (n : nat) (g : rng_t) : list R * rng_t :=
  match n with
  | O => ([], g)
  | S n' =>
      let (z, g1) := rng_normal g in
      let (zs, g2) := draw_normals n' g1 in (z :: zs, g2)
  end.

(** [numpy.random.normal(0., 1., n)] *)
Definition np_normal (n : Z) : M (list R) := fun st =>
  if (n <? 0)%Z then (Err ValueError, st)
  else let (zs, g) := draw_normals (Z.to_nat n) (rng st) in
       (Ok (map (fun z => 0 + 1 * z) zs), with_rng st g).

(** [dx[i+1] = -dx[i]*dt + sfint[k]*es[i]*sdt + dx[i]], from [dx[0] = 0]. *)
Fixpoint agn_walk (dt sdt s : R) (es : list R) (x : R) : list R :=
  match es with
  | [] => []
  | e :: es' => let x' := - x * dt + s * e * sdt + x in x' :: agn_walk dt sdt s es' x'
  end.

(** One band of the loop [for k in sfint.keys()]. *)
Definition agn_band (dt sdt endepoch : R) (nbins : Z) (es epochs : list R)
    (sf : pyval) : result (list R) :=
  s <- as_num sf ;;
  let dx := 0 :: agn_walk dt sdt s es 0 in
  let x := linspace 0 endepoch (Z.to_nat (nbins + 1)) in
  intdx <- mk_spline None x dx ;;
  call_spline_arr intdx epochs.

Definition applyAgn (params : Dict.t pyval) (expmjd : list R) : M (Dict.t (list R)) :=
  toff <<- lift (get_float params "t0_mjd") ;;
  seedv <<- lift (getitem params "seed") ;;
  seed <<- lift (py_int seedv) ;;
  sfu <<- lift (getitem params "agn_sfu") ;;
  sfg <<- lift (getitem params "agn_sfg") ;;
  sfr <<- lift (getitem params "agn_sfr") ;;
  sfi <<- lift (getitem params "agn_sfi") ;;
  sfz <<- lift (getitem params "agn_sfz") ;;
  sfy <<- lift (getitem params "agn_sfy") ;;
  let sfint := [("u", sfu); ("g", sfg); ("r", sfr); ("i", sfi); ("z", sfz); ("y", sfy)]%string in
  tauv <<- lift (getitem params "agn_tau") ;;
  let epochs := map (fun e => e - toff) expmjd in
  emin <<- lift (pymin epochs) ;;
  if Rlt_dec emin 0 then lift (Err InvalidParameters) else
  endepoch <<- lift (pymax epochs) ;;
  tau <<- lift (as_num tauv) ;;   (* [tau/100.] is the first use of [tau] *)
  let dt0 := tau / 100 in
  nbins <<- lift (int_ceil_div endepoch dt0) ;;
  let dt := (endepoch / IZR nbins) / tau in
  if Rlt_dec dt 0 then lift (Err ValueError) else   (* math.sqrt domain error *)
  let sdt := sqrt dt in
  u <<- np_seed seed ;;
  es <<- np_normal nbins ;;
  lift (Dict.mapE (agn_band dt sdt endepoch nbins es epochs) sfint).

(** The parameters [applyAgn] reads. *)
Definition agn_param_keys : list string :=
  ["t0_mjd"; "seed"; "agn_sfu"; "agn_sfg"; "agn_sfr"; "agn_sfi"; "agn_sfz"; "agn_sfy";
   "agn_tau"]%string.

(** ** AM CVn: sinusoid plus bursts *)

(** One burst pulse started at [o]:
    [amp_burst*tmp*(tmp < 1.0)] with [tmp = exp(-1*(epoch - o)/burst_scale)/exp(-1.)].
    The real [exp] does not overflow: for an epoch more than about
    [709*burst_scale] days before [o], numpy's [tmp] is inf and [inf*0] is
    nan, which this reading does not show. *)
Definition burst_pulse (amp scale o epoch : R) : R :=
  let tmp := exp (-1 * (epoch - o) / scale) / exp (-1) in
  amp * tmp * (if Rlt_dec tmp 1 then 1 else 0).

(** [numpy.linspace] with a float sample count. *)
Definition linspace_f (a b num : R) : result (list R) :=
  if Rlt_dec num 0 then Err ValueError else Ok (linspace a b (Z.to_nat (trunc num))).

(** [adds = zeros(n); for o in starts: adds -= amp_burst*tmp*(tmp < 1.0)] *)
Definition burst_adds (amp scale : R) (starts epochs : list R) : list R :=
  fold_left (fun adds o => vsub adds (map (burst_pulse amp scale o) epochs))
            starts (map (fun _ => 0) epochs).

(** The burst array [adds] of [applyAmcvn]. *)
Definition amcvn_adds (params : Dict.t pyval) (t0 maxyears : R) (epochs : list R)
    : result (list R) :=
  freq <- get_num params "burst_freq" ;;
  if Req_EM_T freq 0 then Err ZeroDivisionError else
  starts <- linspace_f (t0 + freq) (t0 + maxyears * 365.25)
              (IZR (ceilZ (maxyears * 365.25 / freq))) ;;
  match starts with
  | [] => Ok (map (fun _ => 0) epochs)   (* the loop body, and its lookups, never run *)
  | _ =>
      scale <- get_num params "burst_scale" ;;
      amp <- get_num params "amp_burst" ;;
      Ok (burst_adds amp scale starts epochs)
  end.

(** The six in-place updates after the burst loop, in source order:
    [Some w] is [xLc += adds + w*color_excess_during_burst*adds/min(adds)],
    [None] is [xLc += adds]. *)
Definition amcvn_excess_weights : list (string * option R) :=
  [("u", Some 2); ("g", Some 1); ("r", Some (1/2)); ("i", None); ("z", None); ("y", None)]%string.

Definition burst_increment (adds : list R) (ce m : R) (w : option R) : list R :=
  match w with
  | Some w => vadd adds (map (fun a => w * ce * a / m) adds)
  | None => adds
  end.

(** A tiny heap of numpy arrays: [uLc = amplitude*cos(...)] allocates one
    array and [gLc = uLc], ..., [yLc = uLc] make the five other names refer to
    that same object, so each [xLc += ...] updates it in place. *)
Definition heap := list (list R).
Definition heap_get (h : heap) (r : nat) : list R := nth r h [].
Definition heap_iadd (h : heap) (r : nat) (x : list R) : heap :=
  firstn r h ++ vadd (heap_get h r) x :: skipn (S r) h.

(** Which heap object each of [uLc], ..., [yLc] names. *)
Definition amcvn_ref (b : string) : nat := 0%nat.

Definition applyAmcvn (params : Dict.t pyval) (expmjd : list R) : M (Dict.t (list R)) :=
  let maxyears := 10 in
  let epochs := expmjd in
  amplitude <<- lift (get_num params "amplitude") ;;
  t0 <<- lift (get_num params "t0") ;;
  period <<- lift (get_num params "period") ;;
  let h0 : heap := [map (fun e => amplitude * cos ((e - t0) / period)) epochs] in
  db <<- lift (getitem params "does_burst") ;;
  h <<- (if truthy db then
      adds <<- lift (amcvn_adds params t0 maxyears epochs) ;;
      ce <<- lift (get_num params "color_excess_during_burst") ;;
      m <<- lift (pymin adds) ;;
      sret (fold_left (fun h bw => heap_iadd h (amcvn_ref (fst bw))
                                      (burst_increment adds ce m (snd bw)))
                      amcvn_excess_weights h0)
    else sret h0) ;;
  sret (fold_left (fun d b => Dict.set b (heap_get h (amcvn_ref b)) d) band_names []).

(** ** Black-hole microlensing template *)

Definition bh_moff (spl : spline) (minage maxage ep : R) : result R :=
  if Rlt_dec ep minage then Ok 1
  else if Rlt_dec maxage ep then Ok 1
  else call_spline spl ep.

Definition applyBHMicrolens (params : Dict.t pyval) (expmjd : list R) : M (Dict.t (list R)) :=
  filename <<- lift (get_str params "filename") ;;
  toff <<- lift (get_float params "t0") ;;
  let epoch := map (fun e => e - toff) expmjd in
  lc <<- loadtxt filename ;;
  t <<- lift (column lc 0) ;;
  t1 <<- lift (item t 1) ;;
  t0 <<- lift (item t 0) ;;
  period <<- lift (last_item t) ;;
  let t' := map (fun x => x * 365) t in
  minage <<- lift (item t' 0) ;;
  maxage <<- lift (last_item t') ;;
  c1 <<- lift (column lc 1) ;;
  magnification <<- lift (mk_spline (Some IUS) t' c1) ;;
  moff <<- lift (mapE (bh_moff magnification minage maxage) epoch) ;;
  (* for k in ['u','g','r','i','z','y']: magoff[k] = -2.5*numpy.log(moff) *)
  sret (all_bands (map (fun m => -2.5 * ln m) moff)).

(** ** Dispatcher *)

Definition evaluator := Dict.t pyval -> list R -> M (Dict.t (list R)).

(** [self.variabilityMethods], in registration order. *)
Definition variabilityMethods : Dict.t evaluator :=
  [("applyMflare", applyMflare); ("applyRRly", applyRRly);
   ("applyCepheid", applyCepheid); ("applyEb", applyEb);
   ("applyMicrolens", applyMicrolens); ("applyAgn", applyAgn);
   ("applyMicrolensing", applyMicrolensing); ("applyAmcvn", applyAmcvn);
   ("applyBHMicrolens", applyBHMicrolens)]%string.

(** [applyVariability] after decoding: an unknown method is a [KeyError]. *)
Definition applyVariability (method : string) (params : Dict.t pyval) (expmjd : list R)
    : M (Dict.t (list R)) :=
  match Dict.get method variabilityMethods with
  | Some ev => ev params expmjd
  | None => lift (Err KeyError)
  end.

End Engine.

Arguments disk {rng_t} _.
Arguments lc_cache {rng_t} _.
Arguments do_cache {rng_t} _.
Arguments reads {rng_t} _.
Arguments rng {rng_t} _.

(** ** Concrete inputs used by the examples below *)

(** A spline library that accepts any data and returns the abscissa, and a
    trivial random generator. *)
Definition demo_ok : string -> list R -> list R -> bool := fun _ _ _ => true.
Definition demo_eval : string -> list R -> list R -> R -> R := fun _ _ _ q => q.
Definition demo_seed : Z -> unit := fun _ => tt.
Definition demo_normal : unit -> R * unit := fun g => (0, g).

(** A seven-column template with time axis [0, 0.25, 0.5, 0.75]. *)
Definition demo_template : list (list R) :=
  [[0; 1/4; 1/2; 3/4]; [1; 2; 3; 4]; [1; 2; 3; 4]; [1; 2; 3; 4];
   [1; 2; 3; 4]; [1; 2; 3; 4]; [1; 2; 3; 4]].

(** A template whose time axis starts at 1 rather than 0. *)
Definition late_template : list (list R) :=
  [[1; 2; 3]; [1; 1; 1]; [1; 1; 1]; [1; 1; 1]; [1; 1; 1]; [1; 1; 1]; [1; 1; 1]].

(** A black-hole lensing template: ages in years and the magnification. *)
Definition bh_template : list (list R) := [[1; 2; 3]; [2; 4; 2]].

Definition demo_files : Dict.t (list (list R)) :=
  [("rr.dat", demo_template); ("late.dat", late_template); ("bh.dat", bh_template)]%string.

Definition demo_state (doCache : bool) : state unit :=
  initializeVariability unit doCache demo_files tt.

Definition demo_params : Dict.t pyval :=
  [("filename", PyStr "rr.dat"); ("tStartMjd", PyNum 0)]%string.

Definition demo_lens_params : Dict.t pyval :=
  [("t0", PyNum 0); ("umin", PyNum 1); ("that", PyNum 10)]%string.

Definition late_params : Dict.t pyval :=
  [("filename", PyStr "late.dat"); ("tStartMjd", PyNum 0)]%string.

Definition bh_params : Dict.t pyval :=
  [("filename", PyStr "bh.dat"); ("t0", PyNum 0)]%string.

(** An AM CVn with bursts every 100 days lasting a 100-day scale. *)
Definition amcvn_burst_params : Dict.t pyval :=
  [("amplitude", PyNum 1); ("t0", PyNum 0); ("period", PyNum 1);
   ("does_burst", PyBool true); ("burst_freq", PyNum 100); ("burst_scale", PyNum 100);
   ("amp_burst", PyNum 1); ("color_excess_during_burst", PyNum 1)]%string.

(** AM CVn parameters with one burst, at [t0 + burst_freq = 3652.5]. *)
Definition amcvn_far_params : Dict.t pyval :=
  [("amplitude", PyNum 1); ("t0", PyNum 0); ("period", PyNum 1);
   ("does_burst", PyBool true); ("burst_freq", PyNum 3652.5); ("burst_scale", PyNum 100);
   ("amp_burst", PyNum 1); ("color_excess_during_burst", PyNum 1)]%string.

(** AGN parameters, with [agn_tau] as given. *)
Definition agn_demo_params (tau : R) : Dict.t pyval :=
  [("t0_mjd", PyNum 0); ("seed", PyInt 3); ("agn_sfu", PyNum 1); ("agn_sfg", PyNum 1);
   ("agn_sfr", PyNum 1); ("agn_sfi", PyNum 1); ("agn_sfz", PyNum 1); ("agn_sfy", PyNum 1);
   ("agn_tau", PyNum tau)]%string.

(** A lens with [umin = 2]. *)
Definition wide_lens_params : Dict.t pyval :=
  [("t0", PyNum 0); ("umin", PyNum 2); ("that", PyNum 10)]%string.

(** ** Runs of the engine and invariants of its state *)

(** A sequence of [applyVariability] requests on one engine instance; a
    request that raises still leaves its state changes behind. *)
Fixpoint run_requests fok fev rt rs rn (reqs : list (string * Dict.t pyval * list R))
    (st : state rt) : state rt :=
  match reqs with
  | [] => st
  | (m, p, e) :: reqs' => run_requests fok fev rt rs rn reqs' (snd (applyVariability fok fev rt rs rn m p e st))
  end.

(** The states an engine instance goes through. *)
Inductive reachable fok fev rt rs rn : state rt -> Prop :=
| reach_init : forall doCache files g,
    reachable fok fev rt rs rn (initializeVariability rt doCache files g)
| reach_step : forall st m params expmjd,
    reachable fok fev rt rs rn st ->
    reachable fok fev rt rs rn (snd (applyVariability fok fev rt rs rn m params expmjd st)).

(** How one step may change the cache: the flag never changes, entries are
    never dropped or replaced, nothing is stored while caching is off, and a
    new entry holds the six band interpolators. *)
Definition cache_le {rt} (st st' : state rt) : Prop :=
  do_cache st' = do_cache st /\
  (forall f ce, Dict.get f (lc_cache st) = Some ce -> Dict.get f (lc_cache st') = Some ce) /\
  (do_cache st = false -> lc_cache st' = lc_cache st) /\
  (forall f ce, Dict.get f (lc_cache st') = Some ce ->
     Dict.get f (lc_cache st) = Some ce \/ Dict.keys (ce_splines ce) = band_names).

Definition stable {rt A} (m : M rt A) : Prop := forall st, cache_le st (snd (m st)).

Definition cache_inv {rt} (st : state rt) : Prop :=
  (do_cache st = false -> lc_cache st = []) /\
  (forall f ce, Dict.get f (lc_cache st) = Some ce -> Dict.keys (ce_splines ce) = band_names).

(** An evaluator's result: the six bands, one value per epoch. *)
Definition six_bands (n : nat) (d : Dict.t (list R)) : Prop :=
  Permutation (Dict.keys d) band_names /\ Forall (fun kv => List.length (snd kv) = n) d.

(** * Properties *)

(** ** Phase folding *)

Lemma floorZ_spec (x : R) : IZR (floorZ x) <= x < IZR (floorZ x) + 1.
Proof.
  unfold floorZ; destruct (archimed x) as [H1 H2].
  rewrite minus_IZR; simpl; lra.
Qed.

Lemma floorZ_IZR (z : Z) : floorZ (IZR z) = z.
Proof.
  unfold floorZ; rewrite <- (tech_up (IZR z) (z + 1)); [lia| |]; rewrite plus_IZR; simpl; lra.
Qed.

Lemma ceilZ_IZR (z : Z) : ceilZ (IZR z) = z.
Proof. unfold ceilZ; rewrite <- opp_IZR, floorZ_IZR; lia. Qed.

Lemma floorZ_add_int (x : R) (k : Z) : floorZ (x + IZR k) = (floorZ x + k)%Z.
Proof.
  unfold floorZ; destruct (archimed x) as [H1 H2].
  assert (E : up (x + IZR k) = (up x + k)%Z).
  { symmetry; apply tech_up; rewrite plus_IZR; lra. }
  rewrite E; lia.
Qed.

Lemma phase_range (e p : R) : 0 <= phase e p < 1.
Proof.
  unfold phase, floordiv; pose proof (floorZ_spec (e / p)); lra.
Qed.

Lemma phase_shift (e p : R) (k : Z) : phase (e + IZR k * p) p = phase e p.
Proof.
  destruct (Req_EM_T p 0) as [->|Hp].
  - now rewrite Rmult_0_r, Rplus_0_r.
  - unfold phase, floordiv.
    replace ((e + IZR k * p) / p) with (e / p + IZR k) by (field; exact Hp).
    rewrite floorZ_add_int, plus_IZR; ring.
Qed.

Section StdPeriodicProofs.
Variable fok : string -> list R -> list R -> bool.
Variable fev : string -> list R -> list R -> R -> R.
Variable rt : Type.

(** C4. Whatever period the template store hands back, every folded phase
    [epoch/period - floor(epoch/period)] lies in [0,1), and moving every
    observation epoch by an integer number [k] of periods leaves the result of
    [applyStdPeriodic] (values and engine state) unchanged. *)
Theorem stdperiodic_phase_wraparound (params : Dict.t pyval) (kf kt : string)
    (ip : option R) (id : bool) (fac : option string) (expmjd : list R)
    (st st1 : state rt) (f : string) (sp : Dict.t spline) (P : R) (k : Z) :
  get_str params kf = Ok f ->
  load_template fok rt f ip id fac st = (Ok (sp, P), st1) ->
  (forall e, 0 <= phase e P < 1) /\
  applyStdPeriodic fok fev rt params kf kt ip id fac (map (fun e => e + IZR k * P) expmjd) st
  = applyStdPeriodic fok fev rt params kf kt ip id fac expmjd st.
Proof.
  intros Hf Hl; split; [intro; apply phase_range|].
  unfold applyStdPeriodic, sbind, lift; rewrite Hf.
  destruct (get_float params kt) as [toff|e]; [|reflexivity].
  rewrite Hl; simpl.
  assert (E : map (fun e => phase e P) (map (fun e => e - toff) (map (fun e => e + IZR k * P) expmjd))
            = map (fun e => phase e P) (map (fun e => e - toff) expmjd)).
  { rewrite !map_map; apply map_ext; intro a.
    replace (a + IZR k * P - toff) with ((a - toff) + IZR k * P) by ring.
    apply phase_shift. }
  now rewrite E.
Qed.

(** C1 (as the code has it). On a cache miss with no period override the
    period is [lc[0][-1] + (lc[0][1] - lc[0][0])]; the time axis is divided by
    it when [inDays], the six interpolators are built on that axis, and the
    epochs are folded with that same period. *)
Theorem stdperiodic_inferred_period (params : Dict.t pyval) (kf kt : string)
    (id : bool) (fac : option string) (expmjd : list R) (st st' : state rt)
    (f : string) (toff : R) (lc : list (list R)) (t0 t1 : R) (ts : list R)
    (r : Dict.t (list R)) :
  get_str params kf = Ok f ->
  get_float params kt = Ok toff ->
  Dict.get f (lc_cache st) = None ->
  Dict.get f (disk st) = Some lc ->
  nth_error lc 0 = Some (t0 :: t1 :: ts) ->
  applyStdPeriodic fok fev rt params kf kt None id fac expmjd st = (Ok r, st') ->
  let P := last (t1 :: ts) t0 + (t1 - t0) in
  exists sp,
    build_splines fok fac
      (if id then map (fun x => x / P) (t0 :: t1 :: ts) else t0 :: t1 :: ts) lc = Ok sp /\
    Dict.mapE (fun s => call_spline_arr fev s (map (fun e => phase (e - toff) P) expmjd)) sp
      = Ok r.
Proof.
  intros Hf Ht Hc Hd Hlc Hrun P.
  unfold applyStdPeriodic, sbind, lift in Hrun; rewrite Hf, Ht in Hrun.
  unfold load_template in Hrun; rewrite Hc in Hrun.
  unfold load_from_disk, sbind, lift, loadtxt in Hrun; rewrite Hd in Hrun.
  unfold column in Hrun; rewrite Hlc in Hrun; simpl in Hrun.
  fold P in Hrun.
  destruct (build_splines fok fac _ lc) as [sp|e] eqn:Hb; [|discriminate].
  exists sp; split; [reflexivity|].
  unfold store_cache, sret in Hrun; simpl in Hrun.
  rewrite map_map in Hrun.
  now injection Hrun as <- _.
Qed.

End StdPeriodicProofs.

(** ** Dictionaries and arrays *)

Lemma dict_get_set_eq {A} (k : string) (v : A) (d : Dict.t A) :
  Dict.get k (Dict.set k v d) = Some v.
Proof.
  induction d as [|[k' v'] d IH]; simpl; [now rewrite String.eqb_refl|].
  destruct (String.eqb k k') eqn:E; simpl; [now rewrite String.eqb_refl|].
  now rewrite E.
Qed.

Lemma dict_get_set_neq {A} (k k' : string) (v : A) (d : Dict.t A) :
  k' <> k -> Dict.get k' (Dict.set k v d) = Dict.get k' d.
Proof.
  intro Hne; induction d as [|[k0 v0] d IH]; simpl.
  - destruct (String.eqb_spec k' k); [contradiction|reflexivity].
  - destruct (String.eqb_spec k k0) as [->|Hk]; simpl.
    + destruct (String.eqb_spec k' k0); [contradiction|reflexivity].
    + destruct (String.eqb k' k0); [reflexivity|exact IH].
Qed.

Lemma dict_mapE_spec {A B} (f : A -> result B) (d : Dict.t A) (d' : Dict.t B) :
  Dict.mapE f d = Ok d' ->
  Dict.keys d' = Dict.keys d /\ Forall2 (fun kv kw => f (snd kv) = Ok (snd kw)) d d'.
Proof.
  revert d'; induction d as [|[k v] d IH]; simpl; intros d' H.
  - injection H as <-; split; [reflexivity|constructor].
  - destruct (f v) as [w|e] eqn:Hf; simpl in H; [|discriminate].
    destruct (Dict.mapE f d) as [d''|e] eqn:Hd; simpl in H; [|discriminate].
    injection H as <-; destruct (IH d'' eq_refl) as [Hk Hfa].
    split; [unfold Dict.keys in *; simpl; now rewrite Hk|].
    constructor; [exact Hf|exact Hfa].
Qed.

Lemma mapE_length {A B} (f : A -> result B) (l : list A) (l' : list B) :
  mapE f l = Ok l' -> List.length l' = List.length l.
Proof.
  revert l'; induction l as [|a l IH]; simpl; intros l' H.
  - now injection H as <-.
  - destruct (f a) as [b|e]; simpl in H; [|discriminate].
    destruct (mapE f l) as [bs|e] eqn:Hl; simpl in H; [|discriminate].
    injection H as <-; simpl; now rewrite (IH bs eq_refl).
Qed.

Lemma dict_fmap_keys {A B} (f : A -> B) (d : Dict.t A) :
  Dict.keys (Dict.fmap f d) = Dict.keys d.
Proof. unfold Dict.keys, Dict.fmap; rewrite map_map; reflexivity. Qed.

Lemma build_splines_keys fok fac t lc sp :
  build_splines fok fac t lc = Ok sp -> Dict.keys sp = band_names.
Proof.
  unfold build_splines; simpl; intro H.
  repeat (match type of H with context [rbind ?m _] =>
            destruct m; simpl in H; [|discriminate] end).
  now injection H as <-.
Qed.

(** ** The cache across evaluator calls *)

Section CacheProofs.
Variable fok : string -> list R -> list R -> bool.
Variable fev : string -> list R -> list R -> R -> R.
Variable rt : Type.
Variable rs : Z -> rt.
Variable rn : rt -> R * rt.

Lemma cache_le_same (st st' : state rt) :
  do_cache st' = do_cache st -> lc_cache st' = lc_cache st -> cache_le st st'.
Proof.
  intros Hd Hc; unfold cache_le; rewrite Hd, Hc; repeat split; auto.
Qed.

Lemma cache_le_refl (st : state rt) : cache_le st st.
Proof. now apply cache_le_same. Qed.

Lemma cache_le_trans (st1 st2 st3 : state rt) :
  cache_le st1 st2 -> cache_le st2 st3 -> cache_le st1 st3.
Proof.
  intros [D1 [P1 [N1 K1]]] [D2 [P2 [N2 K2]]]; repeat split.
  - congruence.
  - auto.
  - intro H; rewrite N2 by congruence; auto.
  - intros f ce H; destruct (K2 f ce H) as [H'|H']; auto.
Qed.

Lemma stable_sret {A} (a : A) : stable (sret (S := state rt) a).
Proof. intro st; apply cache_le_refl. Qed.

Lemma stable_lift {A} (r : result A) : stable (lift (S := state rt) r).
Proof. intro st; apply cache_le_refl. Qed.

Lemma stable_bind {A B} (m : M rt A) (f : A -> M rt B) :
  stable m -> (forall a, stable (f a)) -> stable (sbind m f).
Proof.
  intros Hm Hf st; unfold sbind; specialize (Hm st).
  destruct (m st) as [[a|e] st'] eqn:E; simpl in *; [|exact Hm].
  eapply cache_le_trans; [exact Hm|apply Hf].
Qed.

Lemma stable_loadtxt (f : string) : stable (loadtxt rt f).
Proof.
  intro st; unfold loadtxt; destruct (Dict.get f (disk st)); apply cache_le_same; reflexivity.
Qed.

Lemma stable_np_seed (seed : Z) : stable (np_seed rt rs seed).
Proof.
  intro st; unfold np_seed; destruct (_ || _)%Z; apply cache_le_same; reflexivity.
Qed.

Lemma stable_np_normal (n : Z) : stable (np_normal rt rn n).
Proof.
  intro st; unfold np_normal; destruct (n <? 0)%Z; [apply cache_le_refl|].
  destruct (draw_normals rt rn _ _); apply cache_le_same; reflexivity.
Qed.

Lemma stable_load_template f ip id fac : stable (load_template fok rt f ip id fac).
Proof.
  intro st; unfold load_template.
  destruct (Dict.get f (lc_cache st)) as [ce|] eqn:Hc; [apply cache_le_refl|].
  unfold load_from_disk, sbind, lift, loadtxt.
  destruct (Dict.get f (disk st)) as [lc|]; simpl; [|apply cache_le_same; reflexivity].
  destruct (column lc 0) as [t|e]; simpl; [|apply cache_le_same; reflexivity].
  destruct (template_period ip t) as [P|e]; simpl; [|apply cache_le_same; reflexivity].
  destruct (build_splines fok fac _ lc) as [sp|e] eqn:Hb; simpl; [|apply cache_le_same; reflexivity].
  unfold store_cache; simpl.
  destruct (do_cache st) eqn:Hdc; simpl; [|apply cache_le_same; reflexivity].
  repeat split; simpl.
  - intros g ce Hg; rewrite dict_get_set_neq; [exact Hg|].
    intros ->; congruence.
  - congruence.
  - intros g ce Hg; destruct (String.eqb_spec g f) as [->|Hne].
    + rewrite dict_get_set_eq in Hg; injection Hg as <-; right; simpl.
      exact (build_splines_keys _ _ _ _ _ Hb).
    + left; rewrite dict_get_set_neq in Hg; auto.
Qed.

Ltac stable_tac :=
  repeat match goal with
  | |- stable (sbind _ _) => apply stable_bind; [ | intro; cbv beta zeta ]
  | |- stable (lift _) => apply stable_lift
  | |- stable (sret _) => apply stable_sret
  | |- stable (loadtxt _ _) => apply stable_loadtxt
  | |- stable (np_seed _ _ _) => apply stable_np_seed
  | |- stable (np_normal _ _ _) => apply stable_np_normal
  | |- stable (load_template _ _ _ _ _ _) => apply stable_load_template
  | |- stable (if ?c then _ else _) => destruct c
  | |- stable (let _ := _ in _) => cbv zeta
  end.

Lemma stable_applyStdPeriodic params kf kt ip id fac expmjd :
  stable (applyStdPeriodic fok fev rt params kf kt ip id fac expmjd).
Proof. unfold applyStdPeriodic; stable_tac. Qed.

Lemma stable_evaluator name ev params expmjd :
  Dict.get name (variabilityMethods fok fev rt rs rn) = Some ev -> stable (ev params expmjd).
Proof.
  unfold variabilityMethods; simpl.
  repeat (destruct (String.eqb name _); [intro H; injection H as <-|]); try discriminate.
  all: cbv beta delta [applyMflare applyRRly applyCepheid applyEb applyMicrolens applyAgn
                   applyMicrolensing applyAmcvn applyBHMicrolens].
  all: stable_tac; try apply stable_applyStdPeriodic.
Qed.

Lemma stable_applyVariability m params expmjd :
  stable (applyVariability fok fev rt rs rn m params expmjd).
Proof.
  unfold applyVariability.
  destruct (Dict.get m (variabilityMethods fok fev rt rs rn)) as [ev|] eqn:E.
  - exact (stable_evaluator m ev params expmjd E).
  - apply stable_lift.
Qed.

Lemma run_requests_cache_le reqs (st : state rt) :
  cache_le st (run_requests fok fev rt rs rn reqs st).
Proof.
  revert st; induction reqs as [|[[m p] e] reqs IH]; intro st; simpl.
  - apply cache_le_refl.
  - eapply cache_le_trans; [apply stable_applyVariability|apply IH].
Qed.

Lemma cache_inv_le (st st' : state rt) : cache_inv st -> cache_le st st' -> cache_inv st'.
Proof.
  intros [I1 I2] [D [P [N K]]]; split.
  - intro H; rewrite N by congruence; apply I1; congruence.
  - intros f ce H; destruct (K f ce H) as [H'|H']; eauto.
Qed.

Lemma reachable_cache_inv (st : state rt) : reachable fok fev rt rs rn st -> cache_inv st.
Proof.
  induction 1.
  - split; [reflexivity|intros f ce H; discriminate].
  - eapply cache_inv_le; [eassumption|apply stable_applyVariability].
Qed.

End CacheProofs.

Section CacheClaims.
Variable fok : string -> list R -> list R -> bool.
Variable fev : string -> list R -> list R -> R -> R.
Variable rt : Type.
Variable rs : Z -> rt.
Variable rn : rt -> R * rt.

Lemma load_template_hit f ip id fac (st : state rt) ce :
  Dict.get f (lc_cache st) = Some ce ->
  load_template fok rt f ip id fac st = (Ok (ce_splines ce, ce_period ce), st).
Proof. intro H; unfold load_template; now rewrite H. Qed.

Lemma load_template_entry f ip id fac (st st1 : state rt) sp P :
  do_cache st = true ->
  load_template fok rt f ip id fac st = (Ok (sp, P), st1) ->
  Dict.get f (lc_cache st1) = Some {| ce_splines := sp; ce_period := P |}.
Proof.
  intros Hdc; unfold load_template.
  destruct (Dict.get f (lc_cache st)) as [[sp0 P0]|] eqn:Hc.
  - intro H; injection H as <- <- <-; exact Hc.
  - unfold load_from_disk, sbind, lift, loadtxt.
    destruct (Dict.get f (disk st)) as [lc|]; simpl; [|discriminate].
    destruct (column lc 0) as [t|e]; simpl; [|discriminate].
    destruct (template_period ip t) as [P1|e]; simpl; [|discriminate].
    destruct (build_splines fok fac _ lc) as [sp1|e]; simpl; [|discriminate].
    unfold store_cache; simpl; rewrite Hdc; simpl.
    intro H; injection H as <- <- <-; simpl; apply dict_get_set_eq.
Qed.

Lemma load_from_disk_reads f ip id fac (st : state rt) :
  reads (snd (load_from_disk fok rt f ip id fac st)) = f :: reads st.
Proof.
  unfold load_from_disk, sbind, lift, loadtxt.
  destruct (Dict.get f (disk st)) as [lc|]; simpl; [|reflexivity].
  destruct (column lc 0) as [t|e]; simpl; [|reflexivity].
  destruct (template_period ip t) as [P1|e]; simpl; [|reflexivity].
  destruct (build_splines fok fac _ lc) as [sp1|e]; simpl; [|reflexivity].
  unfold store_cache; simpl; destruct (do_cache st); reflexivity.
Qed.

Lemma applyStdPeriodic_cached params kf kt ip id fac expmjd (st : state rt) f toff ce :
  get_str params kf = Ok f -> get_float params kt = Ok toff ->
  Dict.get f (lc_cache st) = Some ce ->
  applyStdPeriodic fok fev rt params kf kt ip id fac expmjd st =
    (Dict.mapE (fun s => call_spline_arr fev s
                  (map (fun e => phase (e - toff) (ce_period ce)) expmjd)) (ce_splines ce), st).
Proof.
  intros Hf Ht Hc; unfold applyStdPeriodic, sbind, lift; rewrite Hf, Ht.
  rewrite (load_template_hit f ip id fac st ce Hc); simpl; now rewrite map_map.
Qed.

(** C2. With caching enabled, once [applyStdPeriodic] has loaded a template
    file, every later request naming that file (after any sequence of other
    requests to the engine, whatever the period override, axis normalisation
    or interpolator kind it asks for) gets the cached interpolators and period
    back and leaves the state untouched: no file is read and nothing is
    rebuilt.  With caching disabled the cache stays empty, so every request
    goes to the disk (the file read is recorded) and builds its interpolators
    afresh. *)
Theorem stdperiodic_cache_reuse :
  (forall (st st1 : state rt) f ip id fac sp P reqs params' kf' kt' ip' id' fac'
          expmjd' toff',
     do_cache st = true ->
     load_template fok rt f ip id fac st = (Ok (sp, P), st1) ->
     get_str params' kf' = Ok f ->
     get_float params' kt' = Ok toff' ->
     let st2 := run_requests fok fev rt rs rn reqs st1 in
     load_template fok rt f ip' id' fac' st2 = (Ok (sp, P), st2) /\
     applyStdPeriodic fok fev rt params' kf' kt' ip' id' fac' expmjd' st2 =
       (Dict.mapE (fun s => call_spline_arr fev s
                     (map (fun e => phase (e - toff') P) expmjd')) sp, st2)) /\
  (forall (st : state rt) f ip id fac,
     reachable fok fev rt rs rn st ->
     do_cache st = false ->
     lc_cache st = [] /\
     load_template fok rt f ip id fac st = load_from_disk fok rt f ip id fac st /\
     reads (snd (load_template fok rt f ip id fac st)) = f :: reads st /\
     lc_cache (snd (load_template fok rt f ip id fac st)) = []).
Proof.
  split.
  - intros st st1 f ip id fac sp P reqs params' kf' kt' ip' id' fac' expmjd' toff'
           Hdc Hl Hf Ht st2.
    pose proof (load_template_entry f ip id fac st st1 sp P Hdc Hl) as He.
    destruct (run_requests_cache_le fok fev rt rs rn reqs st1) as [_ [Hp _]].
    specialize (Hp f _ He); fold st2 in Hp.
    split.
    + exact (load_template_hit f ip' id' fac' st2 _ Hp).
    + exact (applyStdPeriodic_cached params' kf' kt' ip' id' fac' expmjd' st2 f toff' _ Hf Ht Hp).
  - intros st f ip id fac Hr Hdc.
    destruct (reachable_cache_inv fok fev rt rs rn st Hr) as [I1 _].
    specialize (I1 Hdc).
    assert (Hl : load_template fok rt f ip id fac st = load_from_disk fok rt f ip id fac st)
      by (unfold load_template; now rewrite I1).
    split; [exact I1|]; split; [exact Hl|]; rewrite Hl; split.
    + apply load_from_disk_reads.
    + destruct (stable_load_template fok rt f ip id fac st) as [_ [_ [N _]]].
      rewrite Hl in N; rewrite N by exact Hdc; exact I1.
Qed.

End CacheClaims.

(** ** Shapes of the evaluators' results *)

Lemma sbind_inv {S A B} (m : SM S A) (f : A -> SM S B) st b st' :
  sbind m f st = (Ok b, st') -> exists a st1, m st = (Ok a, st1) /\ f a st1 = (Ok b, st').
Proof.
  unfold sbind; destruct (m st) as [[a|e] st1]; intro H; [eauto|discriminate].
Qed.

Lemma lift_inv {S A} (r : result A) (st : S) a st' :
  lift r st = (Ok a, st') -> r = Ok a /\ st' = st.
Proof. unfold lift; intro H; now injection H as -> ->. Qed.

Lemma sret_inv {S A} (a : A) (st : S) b st' :
  sret a st = (Ok b, st') -> b = a /\ st' = st.
Proof. unfold sret; intro H; now injection H as -> ->. Qed.

(** Peel a successful run of a monadic program into the successful runs of
    its steps. *)
Ltac inv_run :=
  repeat match goal with
  | H : sbind _ _ _ = (Ok _, _) |- _ =>
      let a := fresh "v" in let s := fresh "s" in
      let H1 := fresh "Hrun" in let H2 := fresh "Hrun" in
      destruct (sbind_inv _ _ _ _ _ H) as [a [s [H1 H2]]]; clear H; cbv beta zeta in H2
  | H : lift _ _ = (Ok _, _) |- _ =>
      let E := fresh "E" in let Es := fresh "Es" in
      destruct (lift_inv _ _ _ _ H) as [E Es]; clear H; subst
  | H : sret _ _ = (Ok _, _) |- _ =>
      let E := fresh "E" in let Es := fresh "Es" in
      destruct (sret_inv _ _ _ _ H) as [E Es]; clear H; subst
  | H : (if ?c then _ else _) _ = (Ok _, _) |- _ => destruct c eqn:?
  | H : Err _ = Ok _ |- _ => discriminate H
  end.

Lemma fold_set_bands {A} (g : string -> A) :
  fold_left (fun d b => Dict.set b (g b) d) band_names [] = map (fun b => (b, g b)) band_names.
Proof. reflexivity. Qed.

Lemma six_bands_intro n (d : Dict.t (list R)) :
  Dict.keys d = band_names -> Forall (fun kv => List.length (snd kv) = n) d -> six_bands n d.
Proof. intros Hk Hl; split; [rewrite Hk; apply Permutation_refl|exact Hl]. Qed.

Lemma six_bands_map n (g : string -> list R) :
  (forall b, List.length (g b) = n) -> six_bands n (map (fun b => (b, g b)) band_names).
Proof.
  intro Hg; apply six_bands_intro.
  - reflexivity.
  - apply Forall_forall; intros kv Hin; apply in_map_iff in Hin as [b [<- _]]; apply Hg.
Qed.

Lemma all_bands_six n (v : list R) : List.length v = n -> six_bands n (all_bands v).
Proof. intro H; apply (six_bands_map n (fun _ => v)); auto. Qed.

Lemma dict_mapE_lengths {A} (f : A -> result (list R)) (d : Dict.t A) d' n :
  Dict.mapE f d = Ok d' -> (forall v w, f v = Ok w -> List.length w = n) ->
  Forall (fun kv => List.length (snd kv) = n) d'.
Proof.
  revert d'; induction d as [|[k v] d IH]; simpl; intros d' H Hf.
  - injection H as <-; constructor.
  - destruct (f v) as [w|e] eqn:Ew; simpl in H; [|discriminate].
    destruct (Dict.mapE f d) as [d''|e]; simpl in H; [|discriminate].
    injection H as <-; constructor; [exact (Hf v w Ew)|exact (IH d'' eq_refl Hf)].
Qed.

Lemma dict_fmap_six n (f : list R -> list R) d :
  (forall l, List.length (f l) = List.length l) -> six_bands n d -> six_bands n (Dict.fmap f d).
Proof.
  intros Hf [Hk Hl]; split.
  - now rewrite dict_fmap_keys.
  - unfold Dict.fmap; apply Forall_map; eapply Forall_impl; [|exact Hl].
    intros kv H; simpl; now rewrite Hf.
Qed.

Lemma length_vadd a b : List.length (vadd a b) = Nat.min (List.length a) (List.length b).
Proof. unfold vadd; now rewrite length_map, length_combine. Qed.

Lemma length_vsub a b : List.length (vsub a b) = Nat.min (List.length a) (List.length b).
Proof. unfold vsub; now rewrite length_map, length_combine. Qed.

Lemma burst_adds_length amp scale starts epochs :
  List.length (burst_adds amp scale starts epochs) = List.length epochs.
Proof.
  unfold burst_adds.
  assert (G : forall acc, List.length acc = List.length epochs ->
    List.length (fold_left (fun adds o => vsub adds (map (burst_pulse amp scale o) epochs))
                   starts acc) = List.length epochs).
  { induction starts as [|o starts IH]; intros acc Hacc; simpl; [exact Hacc|].
    apply IH; rewrite length_vsub, length_map, Hacc; apply Nat.min_id. }
  apply G; apply length_map.
Qed.

Lemma amcvn_adds_length params t0 maxyears epochs adds :
  amcvn_adds params t0 maxyears epochs = Ok adds -> List.length adds = List.length epochs.
Proof.
  unfold amcvn_adds; intro H.
  destruct (get_num params "burst_freq") as [freq|e]; simpl in H; [|discriminate].
  destruct (Req_EM_T freq 0); [discriminate|].
  destruct (linspace_f _ _ _) as [starts|e]; simpl in H; [|discriminate].
  destruct starts as [|o starts].
  - injection H as <-; apply length_map.
  - destruct (get_num params "burst_scale"); simpl in H; [|discriminate].
    destruct (get_num params "amp_burst"); simpl in H; [|discriminate].
    injection H as <-; apply burst_adds_length.
Qed.

Lemma burst_increment_length adds ce m w :
  List.length (burst_increment adds ce m w) = List.length adds.
Proof.
  destruct w; simpl; [|reflexivity].
  rewrite length_vadd, length_map; apply Nat.min_id.
Qed.

(** With every name referring to one heap object, the updates keep a heap of
    one array of the epochs' length. *)
Lemma amcvn_heap_shape adds ce m (ws : list (string * option R)) (y : list R) :
  List.length adds = List.length y ->
  exists y', fold_left (fun h bw => heap_iadd h (amcvn_ref (fst bw))
                                      (burst_increment adds ce m (snd bw))) ws [y] = [y'] /\
             List.length y' = List.length y.
Proof.
  revert y; induction ws as [|bw ws IH]; intros y Hy; simpl; [eauto|].
  unfold heap_iadd at 2, amcvn_ref at 2; simpl.
  destruct (IH (vadd y (burst_increment adds ce m (snd bw)))) as [y' [E L]].
  - rewrite length_vadd, burst_increment_length; lia.
  - exists y'; split; [exact E|].
    rewrite L, length_vadd, burst_increment_length; lia.
Qed.

Section ShapeProofs.
Variable fok : string -> list R -> list R -> bool.
Variable fev : string -> list R -> list R -> R -> R.
Variable rt : Type.
Variable rs : Z -> rt.
Variable rn : rt -> R * rt.

Lemma load_template_keys f ip id fac (st st1 : state rt) sp P :
  cache_inv st -> load_template fok rt f ip id fac st = (Ok (sp, P), st1) ->
  Dict.keys sp = band_names.
Proof.
  intros [_ I2]; unfold load_template.
  destruct (Dict.get f (lc_cache st)) as [ce|] eqn:Hc.
  - intro H; injection H as <- _ _; exact (I2 f ce Hc).
  - unfold load_from_disk; intro H; inv_run.
    match goal with E : (_, _) = (_, _) |- _ => injection E as -> _ end.
    eapply build_splines_keys; eassumption.
Qed.

Lemma stdperiodic_shape params kf kt ip id fac expmjd (st st' : state rt) d :
  cache_inv st ->
  applyStdPeriodic fok fev rt params kf kt ip id fac expmjd st = (Ok d, st') ->
  six_bands (List.length expmjd) d.
Proof.
  intros I H; unfold applyStdPeriodic in H; inv_run.
  match goal with
  | HL : load_template _ _ _ _ _ _ _ = (Ok ?spP, _),
    HM : Dict.mapE _ _ = Ok d |- _ =>
      destruct spP as [sp P];
      pose proof (load_template_keys _ _ _ _ _ _ _ _ I HL) as Hk;
      destruct (dict_mapE_spec _ _ _ HM) as [Hk' _];
      apply six_bands_intro; [simpl in Hk'; congruence|];
      eapply dict_mapE_lengths; [exact HM|]
  end.
  intros s w Hw; unfold call_spline_arr in Hw; rewrite (mapE_length _ _ _ Hw).
  now rewrite !length_map.
Qed.

Lemma agn_band_length dt sdt endepoch nbins es epochs sf w :
  agn_band fok fev dt sdt endepoch nbins es epochs sf = Ok w -> List.length w = List.length epochs.
Proof.
  unfold agn_band, rbind; intro H.
  repeat match type of H with
  | match ?m with _ => _ end = _ => destruct m; try discriminate H
  end.
  exact (mapE_length _ _ _ H).
Qed.

Lemma evaluator_shape name ev params expmjd (st st' : state rt) d :
  cache_inv st ->
  Dict.get name (variabilityMethods fok fev rt rs rn) = Some ev ->
  ev params expmjd st = (Ok d, st') ->
  six_bands (List.length expmjd) d.
Proof.
  intro I; unfold variabilityMethods; simpl.
  repeat (destruct (String.eqb name _); [intro Hev; injection Hev as <-|]); try discriminate.
  all: cbv beta delta [applyMflare applyRRly applyCepheid applyEb applyMicrolens applyAgn
                   applyMicrolensing applyAmcvn applyBHMicrolens].
  - (* applyMflare *)
    intro H; inv_run.
    apply dict_fmap_six; [intro; apply length_map|].
    eapply stdperiodic_shape; eassumption.
  - (* applyRRly *)
    apply stdperiodic_shape; exact I.
  - (* applyCepheid *)
    intro H; inv_run; eapply stdperiodic_shape; eassumption.
  - (* applyEb *)
    intro H; inv_run.
    apply dict_fmap_six; [intro; apply length_map|].
    eapply stdperiodic_shape; eassumption.
  - (* applyMicrolens *)
    intro H; inv_run; apply all_bands_six; now rewrite !length_map.
  - (* applyAgn *)
    intro H; inv_run.
    apply six_bands_intro.
    + match goal with HM : Dict.mapE _ _ = Ok d |- _ =>
        destruct (dict_mapE_spec _ _ _ HM) as [Hk _]; rewrite Hk; reflexivity end.
    + match goal with HM : Dict.mapE _ _ = Ok d |- _ =>
        eapply dict_mapE_lengths; [exact HM|] end.
      intros sf w Hw; rewrite (agn_band_length _ _ _ _ _ _ _ _ Hw); apply length_map.
  - (* applyMicrolensing *)
    intro H; inv_run; apply all_bands_six; now rewrite !length_map.
  - (* applyAmcvn *)
    intro H; cbv zeta in H; inv_run; rewrite fold_set_bands; apply six_bands_map; intro b.
    + match goal with
      | HA : amcvn_adds _ _ _ _ = Ok ?adds
        |- context [fold_left _ amcvn_excess_weights [?y0]] =>
          match goal with |- context [burst_increment adds ?ce ?m] =>
          destruct (amcvn_heap_shape adds ce m amcvn_excess_weights y0) as [y [Ey Ly]];
          [ rewrite (amcvn_adds_length _ _ _ _ _ HA); now rewrite !length_map
          | rewrite Ey; unfold heap_get, amcvn_ref; simpl; now rewrite Ly, length_map ]
          end
      end.
    + unfold heap_get, amcvn_ref; simpl; apply length_map.
  - (* applyBHMicrolens *)
    intro H; inv_run; apply all_bands_six.
    match goal with HM : mapE (bh_moff _ _ _ _) _ = Ok _ |- _ =>
      rewrite length_map, (mapE_length _ _ _ HM); apply length_map end.
Qed.

(** C9. In every engine state reachable from [initializeVariability], each
    of the nine registered evaluators, when it returns normally, returns a
    mapping whose keys are exactly the six bands u, g, r, i, z, y, each mapped
    to an array with one value per observation epoch. *)
Theorem evaluators_six_bands name ev params expmjd (st st' : state rt) d :
  reachable fok fev rt rs rn st ->
  Dict.get name (variabilityMethods fok fev rt rs rn) = Some ev ->
  ev params expmjd st = (Ok d, st') ->
  six_bands (List.length expmjd) d.
Proof.
  intro Hr; apply evaluator_shape.
  exact (reachable_cache_inv fok fev rt rs rn st Hr).
Qed.

End ShapeProofs.

(** ** The AGN random walk *)

(** Facts on the numeric helpers used by [applyAgn]. *)

Lemma fold_Rmin_neg (l : list R) (x : R) :
  fold_left Rmin l x < 0 <-> exists y, In y (x :: l) /\ y < 0.
Proof.
  revert x; induction l as [|y l IH]; intro x; simpl.
  - split; [intro H; exists x; auto|intros [y [[<-|[]] H]]; exact H].
  - rewrite IH; split.
    + intros [z [[<-|Hz] Hlt]].
      * unfold Rmin in Hlt; destruct (Rle_dec x y); [exists x|exists y]; simpl; auto.
      * exists z; simpl; auto.
    + intros [z [[<-|[<-|Hz]] Hlt]].
      * exists (Rmin x y); simpl; split; [auto|]; unfold Rmin; destruct (Rle_dec x y); lra.
      * exists (Rmin x y); simpl; split; [auto|]; unfold Rmin; destruct (Rle_dec x y); lra.
      * exists z; simpl; auto.
Qed.

Lemma fold_Rmax_ge (l : list R) (x z : R) : In z (x :: l) -> z <= fold_left Rmax l x.
Proof.
  assert (G : forall l x, z <= x \/ In z l -> z <= fold_left Rmax l x).
  { induction l0 as [|y l0 IH]; intros x0 [Hz|Hz]; simpl in *; try tauto.
    - apply IH; left; unfold Rmax; destruct (Rle_dec x0 y); lra.
    - destruct Hz as [Hy|Hz]; apply IH; [left; subst y|right; exact Hz].
      unfold Rmax; destruct (Rle_dec x0 z); lra. }
  intros [<-|Hz]; apply G; [left; lra|right; exact Hz].
Qed.

Lemma pymin_neg (l : list R) (m : R) : pymin l = Ok m -> (m < 0 <-> exists y, In y l /\ y < 0).
Proof. destruct l as [|x l]; simpl; intro H; [discriminate|injection H as <-; apply fold_Rmin_neg]. Qed.

Lemma pymax_ge (l : list R) (m : R) : pymax l = Ok m -> forall z, In z l -> z <= m.
Proof. destruct l as [|x l]; simpl; intro H; [discriminate|injection H as <-; apply fold_Rmax_ge]. Qed.

Lemma pymin_ok (l : list R) : l <> [] -> exists m, pymin l = Ok m.
Proof. destruct l; [contradiction|eexists; reflexivity]. Qed.

Lemma pymax_ok (l : list R) : l <> [] -> exists m, pymax l = Ok m.
Proof. destruct l; [contradiction|eexists; reflexivity]. Qed.

Lemma pymin_zeros (epochs : list R) : epochs <> [] -> pymin (map (fun _ => 0) epochs) = Ok 0.
Proof.
  destruct epochs as [|e es]; [contradiction|intros _; simpl; f_equal].
  induction es as [|e' es IH]; [reflexivity|simpl].
  replace (Rmin 0 0) with 0 by (unfold Rmin; destruct (Rle_dec 0 0); reflexivity); exact IH.
Qed.

Lemma pymax_zeros (epochs : list R) : epochs <> [] -> pymax (map (fun _ => 0) epochs) = Ok 0.
Proof.
  destruct epochs as [|e es]; [contradiction|intros _; simpl; f_equal].
  induction es as [|e' es IH]; [reflexivity|simpl].
  replace (Rmax 0 0) with 0 by (unfold Rmax; destruct (Rle_dec 0 0); reflexivity); exact IH.
Qed.

Lemma ceilZ_pos (x : R) : 0 < x -> (1 <= ceilZ x)%Z.
Proof.
  intro Hx; unfold ceilZ; pose proof (floorZ_spec (- x)) as [H1 _].
  assert (floorZ (- x) < 0)%Z by (apply lt_IZR; lra); lia.
Qed.

Lemma ceilZ_ge (x : R) : x <= IZR (ceilZ x).
Proof. unfold ceilZ; pose proof (floorZ_spec (- x)) as [H1 _]; rewrite opp_IZR; lra. Qed.

Lemma draw_normals_length rt (rn : rt -> R * rt) n g :
  List.length (fst (draw_normals rt rn n g)) = n.
Proof.
  revert g; induction n as [|n IH]; intro g; simpl; [reflexivity|].
  destruct (rn g) as [z g1]; specialize (IH g1).
  destruct (draw_normals rt rn n g1) as [zs g2]; simpl in *; now rewrite IH.
Qed.

Lemma agn_walk_length dt sdt s es x : List.length (agn_walk dt sdt s es x) = List.length es.
Proof. revert x; induction es as [|e es IH]; intro x; simpl; [reflexivity|now rewrite IH]. Qed.

Lemma last_indep {A} (l : list A) (d d' : A) : l <> [] -> last l d = last l d'.
Proof.
  induction l as [|a l IH]; intro H; [contradiction|].
  destruct l as [|b l]; [reflexivity|]; simpl; apply IH; discriminate.
Qed.

Lemma interp_seg_some (xs' : list R) (x0 : R) (ys : list R) (q : R) :
  List.length (x0 :: xs') = List.length ys -> xs' <> [] -> q <= last xs' x0 ->
  exists v, interp_seg (x0 :: xs') ys q = Some v.
Proof.
  revert x0 ys; induction xs' as [|x1 rest IH]; intros x0 ys Hl Hne Hq; [contradiction|].
  destruct ys as [|y0 [|y1 ys]]; simpl in Hl; try discriminate.
  simpl; destruct (Rle_dec q x1) as [Hle|Hgt]; [eauto|].
  destruct rest as [|x2 rest]; [simpl in Hq; contradiction|].
  apply (IH x1 (y1 :: ys)); [simpl in *; lia|discriminate|].
  rewrite (last_indep _ x1 x0); [exact Hq|discriminate].
Qed.

Lemma linspace_ends (E : R) (m : nat) :
  exists xs', linspace 0 E (S (S m)) = 0 :: xs' /\ xs' <> [] /\ last xs' 0 = E /\
              List.length xs' = S m.
Proof.
  unfold linspace.
  set (f := fun i => 0 + INR i * (E - 0) / INR (S m)).
  exists (map f (seq 1 (S m))); split; [|split; [|split]].
  - change (seq 0 (S (S m))) with (0%nat :: seq 1 (S m)); cbn [map].
    replace (f 0%nat) with 0; [reflexivity|unfold f; cbv beta; change (INR 0) with 0; lra].
  - simpl; discriminate.
  - rewrite seq_S, map_app; cbn [map]; rewrite last_last; unfold f.
    replace (1 + m)%nat with (S m) by lia.
    field; apply not_0_INR; discriminate.
  - now rewrite length_map, length_seq.
Qed.

Lemma mapE_ok {A B} (f : A -> result B) (l : list A) :
  (forall x, In x l -> exists y, f x = Ok y) -> exists l', mapE f l = Ok l'.
Proof.
  induction l as [|a l IH]; intro H; simpl; [eauto|].
  destruct (H a (or_introl eq_refl)) as [b Hb]; rewrite Hb; simpl.
  destruct IH as [l' Hl']; [intros x Hx; apply H; now right|]; rewrite Hl'; simpl; eauto.
Qed.

Lemma dict_mapE_ok {A B} (f : A -> result B) (d : Dict.t A) :
  (forall kv, In kv d -> exists y, f (snd kv) = Ok y) -> exists d', Dict.mapE f d = Ok d'.
Proof.
  induction d as [|[k v] d IH]; intro H; simpl; [eauto|].
  destruct (H (k, v) (or_introl eq_refl)) as [b Hb]; simpl in Hb; rewrite Hb; simpl.
  destruct IH as [d' Hd']; [intros kv Hkv; apply H; now right|]; rewrite Hd'; simpl; eauto.
Qed.

Lemma mapE_err {A B} (f : A -> result B) (l : list A) e :
  mapE f l = Err e -> exists x, f x = Err e.
Proof.
  induction l as [|a l IH]; simpl; [discriminate|].
  destruct (f a) eqn:Ha; simpl; [|intro H; injection H as ->; eauto].
  destruct (mapE f l) eqn:Hl; simpl; [discriminate|intro H; injection H as ->; auto].
Qed.

Lemma dict_mapE_err {A B} (f : A -> result B) (d : Dict.t A) e :
  Dict.mapE f d = Err e -> exists x, f x = Err e.
Proof.
  induction d as [|[k v] d IH]; simpl; [discriminate|].
  destruct (f v) eqn:Hv; simpl; [|intro H; injection H as ->; eauto].
  destruct (Dict.mapE f d) eqn:Hd; simpl; [discriminate|intro H; injection H as ->; auto].
Qed.

Lemma interp1d_call_err xs ys q e : interp1d_call xs ys q = Err e -> e = ValueError.
Proof.
  unfold interp1d_call; destruct xs as [|x0 xs']; [congruence|].
  destruct (Rlt_dec q x0); [congruence|]; destruct (Rlt_dec _ q); [congruence|].
  destruct (interp_seg _ _ _); congruence.
Qed.

Section AgnProofs.
Variable fok : string -> list R -> list R -> bool.
Variable fev : string -> list R -> list R -> R -> R.
Variable rt : Type.
Variable rs : Z -> rt.
Variable rn : rt -> R * rt.

(** C3. [applyAgn] is a function of the parameters it reads and of the
    epochs alone: two runs whose parameter mappings agree on [t0_mjd], [seed],
    the six [agn_sf*] amplitudes and [agn_tau], on the same epochs, give the
    same outcome (the same six arrays, or the same exception), whatever the
    engine state before each run, in particular whatever the state of numpy's
    global generator. *)
Theorem applyAgn_deterministic (p1 p2 : Dict.t pyval) (expmjd : list R) (st1 st2 : state rt) :
  (forall k, In k agn_param_keys -> Dict.get k p1 = Dict.get k p2) ->
  fst (applyAgn fok fev rt rs rn p1 expmjd st1) = fst (applyAgn fok fev rt rs rn p2 expmjd st2).
Proof.
  intro Hk.
  assert (G : forall k, In k agn_param_keys -> getitem p1 k = getitem p2 k)
    by (intros k Hin; unfold getitem; now rewrite (Hk k Hin)).
  unfold applyAgn, get_float, get_num.
  rewrite (G "t0_mjd"%string), (G "seed"%string), (G "agn_sfu"%string), (G "agn_sfg"%string),
          (G "agn_sfr"%string), (G "agn_sfi"%string), (G "agn_sfz"%string),
          (G "agn_sfy"%string), (G "agn_tau"%string)
    by (unfold agn_param_keys; simpl; tauto).
  unfold sbind, lift, np_seed, np_normal, with_rng, rbind, getitem.
  repeat (simpl; match goal with
                 | |- context [match ?x with _ => _ end] =>
                     lazymatch x with context [match _ with _ => _ end] => fail | _ => destruct x end
                 end);
    reflexivity.
Qed.

Lemma agn_band_err dt sdt endepoch nbins es epochs sf e :
  agn_band fok fev dt sdt endepoch nbins es epochs sf = Err e -> e <> InvalidParameters.
Proof.
  unfold agn_band, rbind; intro H.
  destruct (as_num sf) eqn:Hs; [|destruct sf; simpl in Hs; congruence].
  destruct (mk_spline fok None _ _) eqn:Hm.
  - unfold call_spline_arr in H; apply mapE_err in H as [q Hq].
    unfold mk_spline in Hm.
    destruct (_ <? 2)%nat; [discriminate|]; destruct (negb _); [discriminate|].
    injection Hm as <-; unfold call_spline in Hq; simpl in Hq.
    apply interp1d_call_err in Hq; congruence.
  - unfold mk_spline in Hm; injection H as ->.
    destruct (_ <? 2)%nat; [congruence|]; destruct (negb _); congruence.
Qed.

Lemma agn_band_ok dt sdt endepoch nbins es epochs s :
  (1 <= nbins)%Z -> List.length es = Z.to_nat nbins ->
  (forall q, In q epochs -> 0 <= q <= endepoch) ->
  exists w, agn_band fok fev dt sdt endepoch nbins es epochs (PyNum s) = Ok w.
Proof.
  intros Hn Hes Hq; unfold agn_band; cbn [as_num rbind].
  destruct (linspace_ends endepoch (Z.to_nat nbins - 1)) as [xs' [Hx [Hne [Hlast Hlen]]]].
  replace (Z.to_nat (nbins + 1)) with (S (S (Z.to_nat nbins - 1))) by lia.
  rewrite Hx; unfold mk_spline.
  replace (List.length (0%R :: xs') <? 2)%nat with false
    by (symmetry; apply Nat.ltb_ge; simpl; lia).
  replace (negb (List.length (0%R :: xs') =? List.length (0%R :: agn_walk dt sdt s es 0))%nat)
    with false
    by (simpl; rewrite agn_walk_length, Hlen, Hes; symmetry; apply negb_false_iff,
          Nat.eqb_eq; lia).
  cbn [rbind]; unfold call_spline_arr; apply mapE_ok; intros q Hin.
  destruct (Hq q Hin) as [Hq0 Hq1].
  unfold call_spline, interp1d_call; cbn [sp_kind sp_x sp_y].
  destruct (Rlt_dec q 0) as [Hlt|_]; [lra|].
  rewrite Hlast; destruct (Rlt_dec endepoch q) as [Hlt|_]; [lra|].
  destruct (interp_seg_some xs' 0 (0 :: agn_walk dt sdt s es 0) q) as [v Hv].
  - simpl; rewrite agn_walk_length, Hlen, Hes; lia.
  - exact Hne.
  - rewrite Hlast; exact Hq1.
  - rewrite Hv; eauto.
Qed.

(** C5.  For a parameter mapping with a numeric [t0_mjd] and [agn_tau], an
    integer [seed] and numeric amplitudes, and at least one epoch:
    - the call takes its [raise("WARNING: ...")] branch exactly when some
      epoch precedes [t0_mjd];
    - when none does, it returns normally provided [agn_tau > 0], the seed is
      accepted by numpy ([0 <= seed < 2^32]) and some epoch lies strictly
      after [t0_mjd];
    - but when every epoch equals [t0_mjd], with the same [agn_tau] and seed,
      it raises ValueError: [endepoch = 0] gives [nbins = 0], and
      [interp1d] of the one-point grid [linspace(0, 0, 1)] refuses it. *)
Theorem applyAgn_epoch_check (p : Dict.t pyval) (expmjd : list R) (st : state rt)
    (toff tau : R) (seed : Z) :
  Dict.get "t0_mjd" p = Some (PyNum toff) ->
  Dict.get "seed" p = Some (PyInt seed) ->
  Dict.get "agn_tau" p = Some (PyNum tau) ->
  (forall k, In k ["agn_sfu"; "agn_sfg"; "agn_sfr"; "agn_sfi"; "agn_sfz"; "agn_sfy"]%string ->
     exists s, Dict.get k p = Some (PyNum s)) ->
  expmjd <> [] ->
  (fst (applyAgn fok fev rt rs rn p expmjd st) = Err InvalidParameters <->
     exists e, In e expmjd /\ e < toff) /\
  (0 < tau -> (0 <= seed < 4294967296)%Z ->
   (forall e, In e expmjd -> toff <= e) -> (exists e, In e expmjd /\ toff < e) ->
   exists d, fst (applyAgn fok fev rt rs rn p expmjd st) = Ok d) /\
  (0 < tau -> (0 <= seed < 4294967296)%Z ->
   (forall e, In e expmjd -> e = toff) ->
   fst (applyAgn fok fev rt rs rn p expmjd st) = Err ValueError).
Proof.
  intros Ht0 Hseed Htau Hsf Hne.
  destruct (Hsf "agn_sfu"%string) as [su Hsu]; [simpl; tauto|].
  destruct (Hsf "agn_sfg"%string) as [sg Hsg]; [simpl; tauto|].
  destruct (Hsf "agn_sfr"%string) as [sr Hsr]; [simpl; tauto|].
  destruct (Hsf "agn_sfi"%string) as [si Hsi]; [simpl; tauto|].
  destruct (Hsf "agn_sfz"%string) as [sz Hsz]; [simpl; tauto|].
  destruct (Hsf "agn_sfy"%string) as [sy Hsy]; [simpl; tauto|].
  set (epochs := map (fun e => e - toff) expmjd).
  assert (Hne' : epochs <> []) by (unfold epochs; destruct expmjd; [contradiction|discriminate]).
  destruct (pymin_ok epochs Hne') as [emin Hmin].
  destruct (pymax_ok epochs Hne') as [emax Hmax].
  assert (Hearly : emin < 0 <-> exists e, In e expmjd /\ e < toff).
  { rewrite (pymin_neg _ _ Hmin); unfold epochs; split.
    - intros [y [Hy Hlt]]; apply in_map_iff in Hy as [e [<- He]]; exists e; split; [exact He|lra].
    - intros [e [He Hlt]]; exists (e - toff); split; [apply (in_map (fun e => e - toff)); exact He|lra]. }
  unfold applyAgn, get_float, get_num, getitem.
  rewrite Ht0, Hseed, Hsu, Hsg, Hsr, Hsi, Hsz, Hsy, Htau.
  cbv beta iota zeta delta [sbind lift rbind as_num py_int np_seed np_normal with_rng].
  fold epochs; rewrite Hmin.
  split; [|split].
  - destruct (Rlt_dec emin 0) as [Hlt|Hge].
    + split; intros _; [apply Hearly; exact Hlt|reflexivity].
    + split; [|intro H; apply Hearly in H; contradiction].
      rewrite Hmax; unfold int_ceil_div.
      repeat (cbv beta iota zeta; match goal with
        | |- context [match ?x with _ => _ end] =>
            lazymatch x with context [match _ with _ => _ end] => fail | _ => destruct x eqn:? end
        end).
      all: cbn [fst]; intro Hc; try discriminate Hc; try (injection Hc as ->).
      all: match goal with HM : Dict.mapE _ _ = Err _ |- _ =>
             apply dict_mapE_err in HM as [x Hx]; exfalso; exact (agn_band_err _ _ _ _ _ _ _ _ Hx eq_refl)
           end.
  - intros Htp Hsr' Hall Hsome.
    assert (Hge : ~ emin < 0)
      by (rewrite Hearly; intros [e [He Hlt]]; specialize (Hall e He); lra).
    assert (Hq : forall q, In q epochs -> 0 <= q <= emax).
    { intros q Hin; split; [|exact (pymax_ge _ _ Hmax q Hin)].
      unfold epochs in Hin; apply in_map_iff in Hin as [e [<- He]]; specialize (Hall e He); lra. }
    assert (Hpos : 0 < emax).
    { destruct Hsome as [e [He Hlt]].
      assert (In (e - toff) epochs) by (apply (in_map (fun e => e - toff)); exact He).
      pose proof (pymax_ge _ _ Hmax _ H); lra. }
    set (nbins := ceilZ (emax / (tau / 100))).
    assert (Hn : (1 <= nbins)%Z).
    { apply ceilZ_pos; apply Rdiv_lt_0_compat; lra. }
    assert (Hicd : int_ceil_div emax (tau / 100) = Ok nbins).
    { unfold int_ceil_div; destruct (Req_EM_T (tau / 100) 0); [lra|reflexivity]. }
    assert (Hdt : ~ emax / IZR nbins / tau < 0).
    { assert (1 <= IZR nbins) by (apply IZR_le; exact Hn).
      assert (0 < emax / IZR nbins / tau)
        by (apply Rdiv_lt_0_compat; [apply Rdiv_lt_0_compat|]; lra).
      lra. }
    assert (Hsb : ((seed <? 0) || (4294967296 <=? seed))%Z = false).
    { apply orb_false_iff; split; [apply Z.ltb_ge|apply Z.leb_gt]; lia. }
    assert (Hnb : (nbins <? 0)%Z = false) by (apply Z.ltb_ge; lia).
    destruct (Rlt_dec emin 0) as [Hlt|_]; [contradiction|].
    rewrite Hmax, Hicd.
    destruct (Rlt_dec (emax / IZR nbins / tau) 0) as [Hlt|_]; [contradiction|].
    rewrite Hsb; cbv beta iota zeta; rewrite Hnb; cbn [rng].
    destruct (draw_normals rt rn (Z.to_nat nbins) (rs seed)) as [zs g] eqn:Hd.
    cbv beta iota zeta.
    assert (Hzs : List.length zs = Z.to_nat nbins).
    { pose proof (draw_normals_length rt rn (Z.to_nat nbins) (rs seed)) as L.
      rewrite Hd in L; exact L. }
    destruct (dict_mapE_ok
                (agn_band fok fev (emax / IZR nbins / tau) (sqrt (emax / IZR nbins / tau))
                   emax nbins (map (fun z => 0 + 1 * z) zs) epochs)
                [("u"%string, PyNum su); ("g"%string, PyNum sg); ("r"%string, PyNum sr);
                 ("i"%string, PyNum si); ("z"%string, PyNum sz); ("y"%string, PyNum sy)])
      as [d Hdm].
    { intros kv Hkv.
      assert (Hs : exists s, snd kv = PyNum s).
      { simpl in Hkv; repeat (destruct Hkv as [<-|Hkv]; [eexists; reflexivity|]); destruct Hkv. }
      destruct Hs as [s Hs]; rewrite Hs.
      apply agn_band_ok; [exact Hn|rewrite length_map; exact Hzs|exact Hq]. }
    exists d; rewrite Hdm; reflexivity.
  - intros Htp Hsr' Hall.
    assert (He0 : epochs = map (fun _ => 0) expmjd).
    { unfold epochs; apply map_ext_in; intros e He; rewrite (Hall e He); ring. }
    rewrite He0, (pymin_zeros _ Hne) in Hmin; injection Hmin as Hm0; subst emin.
    assert (Hmax0 : pymax epochs = Ok 0) by (rewrite He0; exact (pymax_zeros _ Hne)).
    assert (Hicd : int_ceil_div 0 (tau / 100) = Ok 0%Z).
    { unfold int_ceil_div; destruct (Req_EM_T (tau / 100) 0); [lra|].
      replace (0 / (tau / 100)) with (IZR 0) by (unfold Rdiv; ring).
      rewrite ceilZ_IZR; reflexivity. }
    assert (Hdt0 : 0 / IZR 0 / tau = 0) by (unfold Rdiv; ring).
    assert (Hsb : ((seed <? 0) || (4294967296 <=? seed))%Z = false).
    { apply orb_false_iff; split; [apply Z.ltb_ge|apply Z.leb_gt]; lia. }
    destruct (Rlt_dec 0 0) as [Hlt|_]; [lra|].
    rewrite Hmax0, Hicd.
    destruct (Rlt_dec (0 / IZR 0 / tau) 0) as [Hlt|_]; [rewrite Hdt0 in Hlt; lra|].
    rewrite Hsb; reflexivity.
Qed.

End AgnProofs.

(** ** AM CVn bursts *)

Lemma nth_vadd (a b : list R) (i : nat) :
  (i < List.length a)%nat -> (i < List.length b)%nat ->
  nth i (vadd a b) 0 = nth i a 0 + nth i b 0.
Proof.
  revert b i; induction a as [|x a IH]; intros [|y b] [|i]; simpl; intros Ha Hb;
    try lia; try reflexivity.
  apply IH; lia.
Qed.

Lemma nth_map_lt (f : R -> R) (l : list R) (i : nat) :
  (i < List.length l)%nat -> nth i (map f l) 0 = f (nth i l 0).
Proof.
  intro H; rewrite (nth_indep _ 0 (f 0)) by (rewrite length_map; exact H); apply map_nth.
Qed.

(** The array left by the six updates of [amcvn_excess_weights], epoch by
    epoch. *)
Lemma amcvn_updates_nth (c adds : list R) (ce m : R) :
  List.length adds = List.length c ->
  let y := fold_left (fun acc bw => vadd acc (burst_increment adds ce m (snd bw)))
             amcvn_excess_weights c in
  List.length y = List.length c /\
  forall i, (i < List.length c)%nat ->
    nth i y 0 = nth i c 0 + 6 * nth i adds 0 + 7/2 * (ce * nth i adds 0 / m).
Proof.
  intros Hl y; subst y; cbn [fold_left amcvn_excess_weights snd burst_increment].
  repeat rewrite length_vadd; rewrite ?length_map; split; [lia|].
  intros i Hi.
  repeat rewrite nth_vadd
    by (repeat rewrite length_vadd; rewrite ?length_map; lia).
  rewrite !(nth_map_lt (fun a => _ * ce * a / m)) by lia.
  assert (E : forall w, w * ce * nth i adds 0 / m = w * (ce * nth i adds 0 / m))
    by (intro w; unfold Rdiv; ring).
  rewrite !E; lra.
Qed.

Section AmcvnProofs.
Variable rt : Type.

(** C6 (as the code has it).  With bursting enabled, a normal return of
    [applyAmcvn] gives all six bands one and the same array: since [gLc],
    ..., [yLc] are the same numpy array as [uLc], the six in-place updates
    (colour-excess weights 2, 1 and 1/2 for u, g and r, none for i, z and y)
    all accumulate in it.  At each epoch [e], with [x] the entry of [adds]
    and [m = min(adds)], every band, z and y included, holds
    [amplitude*cos((e - t0)/period) + 6*x + 7/2*(color_excess_during_burst*x/m)]:
    the reddest bands carry the whole colour excess of u, g and r. *)
Theorem amcvn_bands_share_excess params expmjd (st st' : state rt) d db a t0 P adds ce m :
  applyAmcvn rt params expmjd st = (Ok d, st') ->
  getitem params "does_burst" = Ok db -> truthy db = true ->
  get_num params "amplitude" = Ok a -> get_num params "t0" = Ok t0 ->
  get_num params "period" = Ok P ->
  amcvn_adds params t0 10 expmjd = Ok adds ->
  get_num params "color_excess_during_burst" = Ok ce -> pymin adds = Ok m ->
  exists y, d = all_bands y /\ List.length y = List.length expmjd /\
    forall i, (i < List.length expmjd)%nat ->
      nth i y 0 = a * cos ((nth i expmjd 0 - t0) / P) + 6 * nth i adds 0
                  + 7/2 * (ce * nth i adds 0 / m).
Proof.
  intros H Hdb Htr Ha Ht Hp Had Hce Hm.
  unfold applyAmcvn, sbind, lift, sret in H; cbv zeta in H.
  rewrite Ha, Ht, Hp, Hdb in H; cbv beta iota in H.
  rewrite Htr, Had, Hce, Hm in H; cbv beta iota in H.
  injection H as <- _.
  exists (fold_left (fun acc bw => vadd acc (burst_increment adds ce m (snd bw)))
            amcvn_excess_weights (map (fun e => a * cos ((e - t0) / P)) expmjd)).
  split; [reflexivity|].
  set (c := map (fun e => a * cos ((e - t0) / P)) expmjd).
  assert (Hc : List.length c = List.length expmjd) by apply length_map.
  assert (Hla : List.length adds = List.length c)
    by (rewrite Hc; exact (amcvn_adds_length _ _ _ _ _ Had)).
  destruct (amcvn_updates_nth c adds ce m Hla) as [L N].
  split; [rewrite L; exact Hc|].
  intros i Hi; rewrite N by lia; unfold c; rewrite (nth_map_lt (fun e => _)) by exact Hi.
  reflexivity.
Qed.

End AmcvnProofs.

(** ** Black-hole microlensing *)

Lemma mapE_map {A B} (f : A -> result B) (g : A -> B) (l : list A) :
  (forall x, f x = Ok (g x)) -> mapE f l = Ok (map g l).
Proof. intro H; induction l as [|a l IH]; simpl; [reflexivity|now rewrite H, IH]. Qed.

Lemma last_item_cons (x : R) (l : list R) : last_item (x :: l) = Ok (last (x :: l) 0).
Proof.
  unfold last_item; f_equal; destruct l as [|y l]; [reflexivity|].
  change (last (x :: y :: l) 0) with (last (y :: l) 0).
  apply last_indep; discriminate.
Qed.

Section BHProofs.
Variable fok : string -> list R -> list R -> bool.
Variable fev : string -> list R -> list R -> R -> R.
Variable rt : Type.

(** C7. Once the template is read and the spline built, [applyBHMicrolens]
    returns normally and gives every band the same array: an epoch (shifted
    by [t0]) strictly before the first or strictly after the last template
    age (ages times 365) gives magnification 1 and so exactly 0, without the
    spline being evaluated; an epoch inside gives [-2.5 ln] of the spline's
    value (natural logarithm). *)
Theorem bh_microlens_boundary (params : Dict.t pyval) (expmjd : list R) (st : state rt)
    (f : string) (toff : R) (lc : list (list R)) (t c1 : list R) :
  get_str params "filename" = Ok f ->
  get_float params "t0" = Ok toff ->
  Dict.get f (disk st) = Some lc ->
  nth_error lc 0 = Some t ->
  nth_error lc 1 = Some c1 ->
  (2 <= List.length t)%nat ->
  fok IUS (map (fun x => x * 365) t) c1 = true ->
  let t' := map (fun x => x * 365) t in
  let minage := hd 0 t' in
  let maxage := last t' 0 in
  exists v st',
    applyBHMicrolens fok fev rt params expmjd st = (Ok (all_bands v), st') /\
    Forall2 (fun e dm =>
      ((e - toff < minage \/ maxage < e - toff) -> dm = 0) /\
      (minage <= e - toff <= maxage -> dm = -2.5 * ln (fev IUS t' c1 (e - toff))))
      expmjd v.
Proof.
  intros Hf Ht Hd H0 H1 Hlen Hok t' minage maxage.
  destruct t as [|x0 [|x1 ts]]; simpl in Hlen; try lia.
  unfold applyBHMicrolens, sbind, lift, loadtxt, column.
  rewrite Hf, Ht, Hd, H0, H1.
  change (item (x0 :: x1 :: ts) 1) with (Ok x1).
  change (item (x0 :: x1 :: ts) 0) with (Ok x0).
  rewrite last_item_cons.
  change (map (fun x => x * 365) (x0 :: x1 :: ts)) with t'.
  replace (item t' 0) with (Ok minage) by reflexivity.
  replace (last_item t') with (Ok maxage) by (unfold t'; simpl map; rewrite last_item_cons; reflexivity).
  cbv beta iota.
  fold t' in Hok; unfold mk_spline; rewrite Hok.
  set (g := fun ep => if Rlt_dec ep minage then 1 else if Rlt_dec maxage ep then 1
                      else fev IUS t' c1 ep).
  rewrite (mapE_map _ g) by (intro ep; unfold bh_moff, g, call_spline; simpl;
                               destruct (Rlt_dec ep minage); [reflexivity|];
                               destruct (Rlt_dec maxage ep); reflexivity).
  unfold sret; do 2 eexists; split; [reflexivity|].
  rewrite map_map.
  induction expmjd as [|e es IH]; constructor; [|exact IH].
  unfold g; split.
  - intros [Hlt|Hlt].
    + destruct (Rlt_dec (e - toff) minage); [|contradiction]; rewrite ln_1; ring.
    + destruct (Rlt_dec (e - toff) minage); [rewrite ln_1; ring|].
      destruct (Rlt_dec maxage (e - toff)); [|contradiction]; rewrite ln_1; ring.
  - intros [Hlo Hhi].
    destruct (Rlt_dec (e - toff) minage); [lra|].
    destruct (Rlt_dec maxage (e - toff)); [lra|reflexivity].
Qed.

End BHProofs.

(** ** Point-lens microlensing *)

(** [x/y <= z/w] by cross-multiplying positive denominators. *)
Lemma div_le_cross (x y z w : R) : 0 < y -> 0 < w -> x * w <= z * y -> x / y <= z / w.
Proof.
  intros Hy Hw H.
  replace (x / y) with (x * w * / (y * w)) by (field; lra).
  replace (z / w) with (z * y * / (y * w)) by (field; lra).
  apply Rmult_le_compat_r; [left; apply Rinv_0_lt_compat; nra | exact H].
Qed.

Lemma le_of_sq (l r : R) : 0 <= r -> l * l <= r * r -> l <= r.
Proof. intros Hr H; destruct (Rle_lt_dec l r) as [|Hlt]; [assumption|nra]. Qed.

Lemma sqrt_sq4 (a : R) : sqrt (a ^ 2 + 4) * sqrt (a ^ 2 + 4) = a ^ 2 + 4.
Proof. apply sqrt_sqrt; nra. Qed.

Lemma sqrt_sq4_pos (a : R) : 0 < sqrt (a ^ 2 + 4).
Proof. apply sqrt_lt_R0; nra. Qed.

(** The point-lens magnification decreases with the impact parameter. *)
Lemma magnification_antitone (a b : R) : 0 < a <= b ->
  (b ^ 2 + 2) / (b * sqrt (b ^ 2 + 4)) <= (a ^ 2 + 2) / (a * sqrt (a ^ 2 + 4)).
Proof.
  intros [Ha Hab].
  pose proof (sqrt_sq4 a) as Sa; pose proof (sqrt_sq4 b) as Sb.
  pose proof (sqrt_sq4_pos a) as Pa; pose proof (sqrt_sq4_pos b) as Pb.
  set (sa := sqrt (a ^ 2 + 4)) in *; set (sb := sqrt (b ^ 2 + 4)) in *.
  apply div_le_cross; [nra|nra|].
  apply le_of_sq.
  { left; apply Rmult_lt_0_compat; [pose proof (pow2_ge_0 a); lra|apply Rmult_lt_0_compat; lra]. }
  set (X := a ^ 2 * (a ^ 2 + 4)); set (Y := b ^ 2 * (b ^ 2 + 4)).
  assert (Hsq : a ^ 2 <= b ^ 2) by (apply pow_incr; lra).
  assert (HXY : X <= Y).
  { unfold X, Y; apply Rmult_le_compat; [nra|nra|exact Hsq|lra]. }
  assert (E : (a ^ 2 + 2) * (b * sb) * ((a ^ 2 + 2) * (b * sb))
              - (b ^ 2 + 2) * (a * sa) * ((b ^ 2 + 2) * (a * sa)) = 4 * (Y - X)).
  { replace ((a ^ 2 + 2) * (b * sb) * ((a ^ 2 + 2) * (b * sb)))
      with ((a ^ 2 + 2) ^ 2 * b ^ 2 * (sb * sb)) by ring.
    replace ((b ^ 2 + 2) * (a * sa) * ((b ^ 2 + 2) * (a * sa)))
      with ((b ^ 2 + 2) ^ 2 * a ^ 2 * (sa * sa)) by ring.
    rewrite Sa, Sb; unfold X, Y; ring. }
  lra.
Qed.

(** The same for the variant [(u + 2)/(u*sqrt(u**2 + 4))]. *)
Lemma magnification_variant_antitone (a b : R) : 0 < a <= b ->
  (b + 2) / (b * sqrt (b ^ 2 + 4)) <= (a + 2) / (a * sqrt (a ^ 2 + 4)).
Proof.
  intros [Ha Hab].
  pose proof (sqrt_sq4_pos a) as Pa; pose proof (sqrt_sq4_pos b) as Pb.
  assert (Hs : sqrt (a ^ 2 + 4) <= sqrt (b ^ 2 + 4)) by (apply sqrt_le_1_alt; nra).
  set (sa := sqrt (a ^ 2 + 4)) in *; set (sb := sqrt (b ^ 2 + 4)) in *.
  apply div_le_cross; [nra|nra|].
  assert (H1 : a * (b + 2) <= b * (a + 2)) by nra.
  assert (H2 : b * (a + 2) * sa <= b * (a + 2) * sb) by (apply Rmult_le_compat_l; nra).
  assert (H3 : a * (b + 2) * sa <= b * (a + 2) * sa) by (apply Rmult_le_compat_r; lra).
  nra.
Qed.

Lemma ln10_pos : 0 < ln 10.
Proof. rewrite <- ln_1; apply ln_increasing; lra. Qed.

Lemma dmag_monotone (x y : R) : 0 < y -> y <= x -> -2.5 * log10 x <= -2.5 * log10 y.
Proof.
  intros Hy Hyx; unfold log10.
  assert (Hl : ln y <= ln x)
    by (destruct Hyx as [Hlt|Heq]; [left; apply ln_increasing; assumption|rewrite Heq; right; reflexivity]); pose proof ln10_pos as H10.
  assert (ln y / ln 10 <= ln x / ln 10)
    by (unfold Rdiv; apply Rmult_le_compat_r; [left; apply Rinv_0_lt_compat|]; lra).
  lra.
Qed.

Lemma lens_u_min (umin that t : R) : lens_u umin that 0 <= lens_u umin that t.
Proof.
  unfold lens_u; apply sqrt_le_1_alt.
  replace (2 * 0 / that) with 0 by (unfold Rdiv; ring).
  pose proof (pow2_ge_0 (2 * t / that)); lra.
Qed.

Lemma lens_u_pos (umin that t : R) : umin <> 0 -> 0 < lens_u umin that t.
Proof.
  intro H; unfold lens_u; apply sqrt_lt_R0.
  pose proof (pow2_ge_0 (2 * t / that)); assert (0 < umin ^ 2) by (replace (umin ^ 2) with (Rsqr umin) by (unfold Rsqr; ring); apply Rsqr_pos_lt; exact H); lra.
Qed.

Lemma lens_u_sym (umin that t : R) : lens_u umin that (- t) = lens_u umin that t.
Proof. unfold lens_u; f_equal; unfold Rdiv; ring. Qed.

Lemma microlens_dmag_peak (umin that t : R) : umin <> 0 ->
  microlens_dmag umin that 0 <= microlens_dmag umin that t.
Proof.
  intro H; unfold microlens_dmag.
  pose proof (lens_u_min umin that t); pose proof (lens_u_pos umin that 0 H).
  apply dmag_monotone.
  - pose proof (lens_u_pos umin that t H); pose proof (sqrt_sq4_pos (lens_u umin that t)).
    apply Rdiv_lt_0_compat; nra.
  - apply magnification_antitone; lra.
Qed.

Lemma microlensing_dmag_peak (umin that t : R) : umin <> 0 ->
  microlensing_dmag umin that 0 <= microlensing_dmag umin that t.
Proof.
  intro H; unfold microlensing_dmag.
  pose proof (lens_u_min umin that t); pose proof (lens_u_pos umin that 0 H).
  apply dmag_monotone.
  - pose proof (lens_u_pos umin that t H); pose proof (sqrt_sq4_pos (lens_u umin that t)).
    apply Rdiv_lt_0_compat; nra.
  - apply magnification_variant_antitone; lra.
Qed.

Lemma applyMicrolens_run rt params (t0 umin that : R) xs (st : state rt)
  (Ht0 : get_num params "t0" = Ok t0) (Hu : get_num params "umin" = Ok umin)
  (Hth : get_num params "that" = Ok that) :
  applyMicrolens rt params xs st
  = (Ok (all_bands (map (microlens_dmag umin that) (map (fun e => e - t0) xs))), st).
Proof. unfold applyMicrolens, sbind, lift, sret; rewrite Ht0, Hu, Hth; reflexivity. Qed.

Lemma applyMicrolensing_run rt params (t0 umin that : R) xs (st : state rt)
  (Ht0 : get_num params "t0" = Ok t0) (Hu : get_num params "umin" = Ok umin)
  (Hth : get_num params "that" = Ok that) :
  applyMicrolensing rt params xs st
  = (Ok (all_bands (map (microlensing_dmag umin that) (map (fun e => e - t0) xs))), st).
Proof. unfold applyMicrolensing, sbind, lift, sret; rewrite Ht0, Hu, Hth; reflexivity. Qed.

Lemma map_shift_sym (f : R -> R) (t0 : R) ds :
  (forall t, f (- t) = f t) ->
  map f (map (fun e => e - t0) (map (fun d => t0 + d) ds))
  = map f (map (fun e => e - t0) (map (fun d => t0 - d) ds)).
Proof.
  intro Hf; rewrite !map_map; apply map_ext; intro d.
  rewrite <- Hf; f_equal; ring.
Qed.

(** C8: for both microlensing evaluators, with [umin] and [that] fixed
    (and nonzero), [u] is smallest at [t = t0]; the offset at [t0] is at most
    the offset at any other epoch (brightest at [t0]); and evaluating at
    [t0 + d] or [t0 - d] gives the same result in every band. *)
Theorem microlens_symmetry_peak params (t0 umin that : R)
  (Ht0 : get_num params "t0" = Ok t0) (Hu : get_num params "umin" = Ok umin)
  (Hth : get_num params "that" = Ok that) (Hnz : umin <> 0) (Hthz : that <> 0) :
  (forall t, lens_u umin that 0 <= lens_u umin that t) /\
  (forall rt (st : state rt) ds,
     applyMicrolens rt params (map (fun d => t0 + d) ds) st
       = applyMicrolens rt params (map (fun d => t0 - d) ds) st /\
     applyMicrolensing rt params (map (fun d => t0 + d) ds) st
       = applyMicrolensing rt params (map (fun d => t0 - d) ds) st) /\
  (forall rt (st : state rt) e, exists x y,
     applyMicrolens rt params [t0; e] st = (Ok (all_bands [x; y]), st) /\ x <= y) /\
  (forall rt (st : state rt) e, exists x y,
     applyMicrolensing rt params [t0; e] st = (Ok (all_bands [x; y]), st) /\ x <= y).
Proof.
  split; [exact (lens_u_min umin that)|].
  split; [|split].
  - intros rt st ds.
    rewrite !(applyMicrolens_run rt params t0 umin that _ st Ht0 Hu Hth).
    rewrite !(applyMicrolensing_run rt params t0 umin that _ st Ht0 Hu Hth).
    split; do 3 f_equal; apply map_shift_sym; intro t;
      [unfold microlens_dmag | unfold microlensing_dmag]; rewrite lens_u_sym; reflexivity.
  - intros rt st e; rewrite (applyMicrolens_run rt params t0 umin that _ st Ht0 Hu Hth).
    exists (microlens_dmag umin that 0), (microlens_dmag umin that (e - t0)); simpl.
    replace (t0 - t0) with 0 by ring.
    split; [reflexivity | apply microlens_dmag_peak; exact Hnz].
  - intros rt st e; rewrite (applyMicrolensing_run rt params t0 umin that _ st Ht0 Hu Hth).
    exists (microlensing_dmag umin that 0), (microlensing_dmag umin that (e - t0)); simpl.
    replace (t0 - t0) with 0 by ring.
    split; [reflexivity | apply microlensing_dmag_peak; exact Hnz].
Qed.

(** ** AM CVn bursts that contribute nothing *)

(** The burst start times [linspace(t0 + burst_freq, ...)] lie at or after their first point. *)
Lemma linspace_lower (a b : R) (n : nat) : a <= b -> Forall (fun x => a <= x) (linspace a b n).
Proof.
  intro Hab; destruct n as [|[|m]].
  - constructor.
  - constructor; [lra|constructor].
  - unfold linspace; apply Forall_forall; intros x Hx; apply in_map_iff in Hx as [i [<- _]].
    assert (0 <= INR i * (b - a) / INR (S m)).
    { unfold Rdiv; apply Rmult_le_pos; [apply Rmult_le_pos; [apply pos_INR|lra]|].
      left; apply Rinv_0_lt_compat; apply lt_0_INR; lia. }
    lra.
Qed.

(** A pulse started at [o] is killed at an epoch no later than [o + scale]. *)
Lemma burst_pulse_killed (amp scale o e : R) : 0 < scale -> e <= o + scale ->
  burst_pulse amp scale o e = 0.
Proof.
  intros Hs He; unfold burst_pulse.
  destruct (Rlt_dec _ 1) as [Hlt|]; [exfalso|ring].
  assert (H0 : -1 <= -1 * (e - o) / scale).
  { replace (-1 * (e - o) / scale) with ((o - e) * / scale) by (field; lra).
    replace (-1) with (- scale * / scale) by (field; lra).
    apply Rmult_le_compat_r; [left; apply Rinv_0_lt_compat; lra | lra]. }
  assert (H1 : exp (-1) <= exp (-1 * (e - o) / scale)).
  { destruct H0 as [H0|H0]; [left; apply exp_increasing; exact H0 | right; f_equal; exact H0]. }
  pose proof (exp_pos (-1)).
  apply (Rmult_lt_compat_r (exp (-1))) in Hlt; [|assumption].
  unfold Rdiv in Hlt; rewrite Rmult_assoc, Rinv_l in Hlt by lra; lra.
Qed.

Lemma vsub_killed (amp scale o : R) epochs : 0 < scale ->
  Forall (fun e => e <= o + scale) epochs ->
  vsub (map (fun _ => 0) epochs) (map (burst_pulse amp scale o) epochs) = map (fun _ => 0) epochs.
Proof.
  intros Hs He; unfold vsub; induction He as [|e es He _ IH]; [reflexivity|].
  simpl; rewrite IH, (burst_pulse_killed amp scale o e Hs He); f_equal; simpl; ring.
Qed.

Lemma burst_adds_zero (amp scale : R) starts epochs : 0 < scale ->
  Forall (fun o => Forall (fun e => e <= o + scale) epochs) starts ->
  burst_adds amp scale starts epochs = map (fun _ => 0) epochs.
Proof.
  intros Hs Hst; unfold burst_adds.
  induction Hst as [|o os Ho _ IH]; [reflexivity|].
  simpl; rewrite (vsub_killed amp scale o epochs Hs Ho); exact IH.
Qed.

(** C10: when every requested epoch is at most [t0 + burst_freq + burst_scale]
    (with [0 < burst_freq <= 3652.5] and [0 < burst_scale]), every burst pulse
    is killed by [(tmp < 1.0)], so [adds] is all zeros and [min(adds)] is 0: the
    colour-excess terms [adds/min(adds)] divide by zero. *)
Theorem amcvn_burst_min_zero params (t0 freq scale amp : R) epochs
  (Hf : get_num params "burst_freq" = Ok freq) (Hfr : 0 < freq <= 10 * 365.25)
  (Hs : get_num params "burst_scale" = Ok scale) (Hsp : 0 < scale)
  (Ha : get_num params "amp_burst" = Ok amp)
  (He : Forall (fun e => e <= t0 + freq + scale) epochs) (Hne : epochs <> []) :
  amcvn_adds params t0 10 epochs = Ok (map (fun _ => 0) epochs) /\
  pymin (map (fun _ => 0) epochs) = Ok 0.
Proof.
  split; [|exact (pymin_zeros epochs Hne)].
  unfold amcvn_adds; rewrite Hf; simpl.
  destruct (Req_EM_T freq 0) as [|_]; [lra|].
  unfold linspace_f.
  destruct (Rlt_dec _ 0) as [Hlt|_].
  { pose proof (ceilZ_ge (10 * 365.25 / freq)).
    assert (0 < 10 * 365.25 / freq) by (apply Rdiv_lt_0_compat; lra); lra. }
  simpl.
  pose proof (linspace_lower (t0 + freq) (t0 + 10 * 365.25)
                (Z.to_nat (trunc (IZR (ceilZ (10 * 365.25 / freq))))) ltac:(lra)) as Hl.
  destruct (linspace _ _ _) as [|o os] eqn:Hls; [reflexivity|].
  rewrite Hs, Ha; simpl; f_equal.
  apply burst_adds_zero; [exact Hsp|].
  eapply Forall_impl; [|exact Hl]; intros o' Ho'.
  eapply Forall_impl; [|exact He]; intros e' He'; simpl in *; lra.
Qed.

(** ** Further properties of the evaluators *)

Lemma gt1_div (a b : R) : 0 < b -> b < a -> 1 < a / b.
Proof.
  intros Hb H; apply (Rmult_lt_reg_r b); [lra|].
  unfold Rdiv; rewrite Rmult_assoc, Rinv_l by lra; lra.
Qed.

Lemma lt1_div (a b : R) : 0 < b -> a < b -> a / b < 1.
Proof.
  intros Hb H; apply (Rmult_lt_reg_r b); [lra|].
  unfold Rdiv; rewrite Rmult_assoc, Rinv_l by lra; lra.
Qed.

Lemma ln_neg_lt1 (x : R) : 0 < x < 1 -> ln x < 0.
Proof. intros [H0 H1]; rewrite <- ln_1; apply ln_increasing; assumption. Qed.

Lemma ln_pos_gt1 (x : R) : 1 < x -> 0 < ln x.
Proof. intro H; rewrite <- ln_1; apply ln_increasing; lra. Qed.

(** The point-lens magnification exceeds 1 for every [u > 0]. *)
Lemma magnification_gt1 (u : R) : 0 < u -> 1 < (u ^ 2 + 2) / (u * sqrt (u ^ 2 + 4)).
Proof.
  intro Hu; pose proof (sqrt_sq4 u) as S; pose proof (sqrt_sq4_pos u) as P.
  set (s := sqrt (u ^ 2 + 4)) in *.
  apply gt1_div; [nra|].
  assert (Hsq : (u * s) * (u * s) < (u ^ 2 + 2) * (u ^ 2 + 2)).
  { replace ((u * s) * (u * s)) with (u ^ 2 * (s * s)) by ring; rewrite S; nra. }
  destruct (Rlt_le_dec (u * s) (u ^ 2 + 2)) as [|Hle]; [assumption|].
  exfalso; assert (0 <= u ^ 2 + 2) by nra; nra.
Qed.

(** For [u >= 2] the variant magnification [(u + 2)/(u*sqrt(u**2 + 4))] is below 1. *)
Lemma magnification_variant_lt1 (u : R) : 2 <= u -> 0 < (u + 2) / (u * sqrt (u ^ 2 + 4)) < 1.
Proof.
  intro Hu; pose proof (sqrt_sq4 u) as S; pose proof (sqrt_sq4_pos u) as P.
  set (s := sqrt (u ^ 2 + 4)) in *.
  split; [apply Rdiv_lt_0_compat; nra|].
  apply lt1_div; [nra|].
  apply (Rle_lt_trans _ (u * u)); [nra|].
  assert (Hs : u < s).
  { destruct (Rlt_le_dec u s) as [|Hle]; [assumption|]. exfalso; nra. }
  nra.
Qed.

(** For [umin <> 0] and [that <> 0] (at [that = 0] numpy divides by zero and
    the offsets are NaN): [applyMicrolens] brightens at every epoch (all
    offsets negative); [applyMicrolensing] dims at every epoch (all offsets
    positive) when moreover [|umin| >= 2]. Neither changes the engine state.
    The signs are those of exact arithmetic: in double precision, an epoch so
    far from [t0] that [u**2 + 2] rounds to [u**2] gives an offset of 0. *)
Theorem microlens_offsets_sign rt params (t0 umin that : R) expmjd (st : state rt)
  (Ht0 : get_num params "t0" = Ok t0) (Hu : get_num params "umin" = Ok umin)
  (Hth : get_num params "that" = Ok that) (Hnz : umin <> 0) (Hthz : that <> 0) :
  (exists v, applyMicrolens rt params expmjd st = (Ok (all_bands v), st) /\
             Forall (fun x => x < 0) v) /\
  (2 <= Rabs umin ->
   exists v, applyMicrolensing rt params expmjd st = (Ok (all_bands v), st) /\
             Forall (fun x => 0 < x) v).
Proof.
  split.
  - eexists; split; [exact (applyMicrolens_run rt params t0 umin that expmjd st Ht0 Hu Hth)|].
    apply Forall_forall; intros x Hx; apply in_map_iff in Hx as [e [<- _]].
    unfold microlens_dmag, log10.
    pose proof (lens_u_pos umin that e Hnz) as Hp.
    pose proof (ln_pos_gt1 _ (magnification_gt1 _ Hp)); pose proof ln10_pos.
    assert (0 < ln ((lens_u umin that e ^ 2 + 2) / (lens_u umin that e * sqrt (lens_u umin that e ^ 2 + 4))) / ln 10)
      by (apply Rdiv_lt_0_compat; assumption).
    lra.
  - intro H2.
    eexists; split; [exact (applyMicrolensing_run rt params t0 umin that expmjd st Ht0 Hu Hth)|].
    apply Forall_forall; intros x Hx; apply in_map_iff in Hx as [e [<- _]].
    unfold microlensing_dmag, log10.
    assert (Hge : 2 <= lens_u umin that e).
    { unfold lens_u; apply (Rle_trans _ (sqrt (2 ^ 2))); [rewrite sqrt_pow2; lra|].
      apply sqrt_le_1_alt.
      pose proof (pow2_ge_0 (2 * e / that)).
      assert (2 ^ 2 <= umin ^ 2).
      { rewrite <- (pow2_abs umin); apply pow_incr; lra. }
      lra. }
    pose proof (ln_neg_lt1 _ (magnification_variant_lt1 _ Hge)); pose proof ln10_pos.
    set (L := ln ((lens_u umin that e + 2) / (lens_u umin that e * sqrt (lens_u umin that e ^ 2 + 4)))) in *.
    assert (L / ln 10 < 0).
    { unfold Rdiv; apply Ropp_lt_cancel; rewrite Ropp_0, Ropp_mult_distr_l.
      apply Rmult_lt_0_compat; [lra|apply Rinv_0_lt_compat; lra]. }
    lra.
Qed.

Lemma linspace_length (a b : R) (n : nat) : List.length (linspace a b n) = n.
Proof. destruct n as [|[|m]]; [reflexivity|reflexivity|unfold linspace; rewrite length_map, length_seq; reflexivity]. Qed.

Lemma agn_walk_scale (dt sdt s : R) es (x : R) :
  agn_walk dt sdt s es (s * x) = map (fun v => s * v) (agn_walk dt sdt 1 es x).
Proof.
  revert x; induction es as [|e es IH]; intro x; simpl; [reflexivity|].
  replace (- (s * x) * dt + s * e * sdt + s * x) with (s * (- x * dt + 1 * e * sdt + x)) by ring.
  rewrite IH; reflexivity.
Qed.

Lemma interp_seg_scale (s : R) xs ys q :
  interp_seg xs (map (fun v => s * v) ys) q = option_map (fun v => s * v) (interp_seg xs ys q).
Proof.
  revert ys; induction xs as [|x0 xs IH]; intro ys; [reflexivity|].
  destruct xs as [|x1 xs]; [destruct ys as [|? [|? ?]]; reflexivity|].
  destruct ys as [|y0 [|y1 ys]]; [reflexivity|reflexivity|].
  cbn [map interp_seg].
  destruct (Rle_dec q x1).
  - simpl; f_equal; destruct (Req_dec (x1 - x0) 0) as [Hz|Hz].
    + rewrite Hz; unfold Rdiv; rewrite Rinv_0; ring.
    + field; exact Hz.
  - exact (IH (y1 :: ys)).
Qed.

Lemma interp1d_call_scale (s : R) xs ys q :
  interp1d_call xs (map (fun v => s * v) ys) q =
  match interp1d_call xs ys q with Ok v => Ok (s * v) | Err e => Err e end.
Proof.
  unfold interp1d_call; destruct xs as [|x0 xs']; [reflexivity|].
  destruct (Rlt_dec q x0); [reflexivity|]; destruct (Rlt_dec _ q); [reflexivity|].
  rewrite interp_seg_scale; destruct (interp_seg _ _ _); reflexivity.
Qed.

Lemma mapE_interp_scale (s : R) xs ys qs :
  mapE (interp1d_call xs (map (fun v => s * v) ys)) qs =
  match mapE (interp1d_call xs ys) qs with Ok w => Ok (map (fun v => s * v) w) | Err e => Err e end.
Proof.
  induction qs as [|q qs IH]; [reflexivity|]; cbn [mapE].
  rewrite interp1d_call_scale, IH.
  destruct (interp1d_call xs ys q); simpl; [|reflexivity].
  destruct (mapE (interp1d_call xs ys) qs); reflexivity.
Qed.

Lemma agn_band_scale fok fev dt sdt endepoch nbins es epochs sf (s : R) :
  as_num sf = Ok s ->
  agn_band fok fev dt sdt endepoch nbins es epochs sf =
  match agn_band fok fev dt sdt endepoch nbins es epochs (PyNum 1) with
  | Ok w => Ok (map (fun v => s * v) w)
  | Err e => Err e
  end.
Proof.
  intro Hs; unfold agn_band; rewrite Hs; simpl.
  replace (0 :: agn_walk dt sdt s es 0) with (map (fun v => s * v) (0 :: agn_walk dt sdt 1 es 0))
    by (simpl; rewrite <- (agn_walk_scale dt sdt s es 0), Rmult_0_r; reflexivity).
  rewrite !agn_walk_length.
  destruct (_ <? 2)%nat; [reflexivity|].
  destruct (negb _); [reflexivity|]; simpl.
  unfold call_spline_arr, call_spline; cbn [sp_kind sp_x sp_y].
  exact (mapE_interp_scale s _ (0 :: agn_walk dt sdt 1 es 0) epochs).
Qed.

Lemma dict_mapE_get {A B} (f : A -> result B) (d : Dict.t A) (d' : Dict.t B) k v :
  Dict.mapE f d = Ok d' -> Dict.get k d = Some v -> exists w, Dict.get k d' = Some w /\ f v = Ok w.
Proof.
  revert d'; induction d as [|[k0 v0] d IH]; intros d' H Hg; [discriminate|].
  simpl in H; destruct (f v0) as [w0|e] eqn:Hf; simpl in H; [|discriminate].
  destruct (Dict.mapE f d) as [d''|e] eqn:Hd; simpl in H; [|discriminate].
  injection H as <-; simpl in *.
  destruct (String.eqb k k0); [injection Hg as <-; eauto|exact (IH d'' eq_refl Hg)].
Qed.

(** The six AGN light curves of one successful [applyAgn] call are one common
    walk scaled by each band's structure function [agn_sf<b>]. *)
Theorem agn_bands_scaled fok fev rt rs rn params expmjd (st : state rt) d :
  fst (applyAgn fok fev rt rs rn params expmjd st) = Ok d ->
  exists w, forall b k v s,
    In (b, k) [("u", "agn_sfu"); ("g", "agn_sfg"); ("r", "agn_sfr");
               ("i", "agn_sfi"); ("z", "agn_sfz"); ("y", "agn_sfy")]%string ->
    getitem params k = Ok v -> as_num v = Ok s ->
    Dict.get b d = Some (map (fun x => s * x) w).
Proof.
  intro Hd; destruct (applyAgn fok fev rt rs rn params expmjd st) as [r st'] eqn:H.
  simpl in Hd; subst r; unfold applyAgn in H; inv_run.
  match goal with
  | H : Dict.mapE ?f ?kvs = Ok d |- _ => set (g := f) in H; rename H into Hm
  end.
  destruct (dict_mapE_get g _ d "u" _ Hm eq_refl) as [du [_ Hgu]].
  match type of Hgu with g ?vu = _ =>
    destruct (as_num vu) as [su|e] eqn:Hsu;
    [|unfold g, agn_band in Hgu; rewrite Hsu in Hgu; discriminate Hgu];
    assert (Hsc : g vu = match g (PyNum 1) with
                         | Ok w => Ok (map (fun x => su * x) w) | Err e => Err e end)
      by (unfold g; apply agn_band_scale; exact Hsu)
  end.
  rewrite Hsc in Hgu.
  destruct (g (PyNum 1)) as [w|e] eqn:Hw; [|discriminate Hgu].
  assert (Hgen : forall b vb sc, Dict.get b [("u", v2); ("g", v3); ("r", v4); ("i", v5);
                                              ("z", v6); ("y", v7)]%string = Some vb ->
                  as_num vb = Ok sc -> Dict.get b d = Some (map (fun x => sc * x) w)).
  { intros b vb sc Hg Hv.
    destruct (dict_mapE_get g _ d b vb Hm Hg) as [w' [Hb Hg']]; rewrite Hb; f_equal.
    assert (Hsc' : g vb = match g (PyNum 1) with
                          | Ok w => Ok (map (fun x => sc * x) w) | Err e => Err e end)
      by (unfold g; apply agn_band_scale; exact Hv).
    rewrite Hsc', Hw in Hg'; injection Hg' as <-; reflexivity. }
  exists w; intros b k val sc Hin Hk Hv; apply (Hgen b val sc); [|exact Hv].
  simpl in Hin; repeat (destruct Hin as [Hin|Hin]; [injection Hin as <- <-; simpl; congruence|]).
  contradiction.
Qed.

Lemma mapE_nth {A B} (f : A -> result B) (l : list A) (l' : list B) (i : nat) (a : A) :
  mapE f l = Ok l' -> nth_error l i = Some a -> exists b, nth_error l' i = Some b /\ f a = Ok b.
Proof.
  revert l' i; induction l as [|x l IH]; intros l' i H Hi; [destruct i; discriminate|].
  simpl in H; destruct (f x) as [y|e] eqn:Hf; simpl in H; [|discriminate].
  destruct (mapE f l) as [ys|e] eqn:Hm; simpl in H; [|discriminate].
  injection H as <-; destruct i as [|i]; simpl in Hi |- *.
  - injection Hi as <-; eauto.
  - exact (IH ys i eq_refl Hi).
Qed.

Lemma dict_mapE_get_inv {A B} (f : A -> result B) (d : Dict.t A) (d' : Dict.t B) k w :
  Dict.mapE f d = Ok d' -> Dict.get k d' = Some w -> exists v, Dict.get k d = Some v /\ f v = Ok w.
Proof.
  revert d'; induction d as [|[k0 v0] d IH]; intros d' H Hg; [injection H as <-; discriminate|].
  simpl in H; destruct (f v0) as [w0|e] eqn:Hf; simpl in H; [|discriminate].
  destruct (Dict.mapE f d) as [d''|e] eqn:Hd; simpl in H; [|discriminate].
  injection H as <-; simpl in *.
  destruct (String.eqb k k0); [injection Hg as <-; eauto|exact (IH d'' eq_refl Hg)].
Qed.

Lemma linspace_second (E : R) (m : nat) :
  exists xs'', linspace 0 E (S (S m)) = 0 :: (E / INR (S m)) :: xs''.
Proof.
  unfold linspace; exists (map (fun i => 0 + INR i * (E - 0) / INR (S m)) (seq 2 m)).
  change (seq 0 (S (S m))) with (0%nat :: 1%nat :: seq 2 m); cbn [map].
  f_equal; [change (INR 0) with 0; lra|f_equal; change (INR 1) with 1; lra].
Qed.

(** The AGN interpolator of every band is zero at epoch [0]. *)
Lemma agn_band_zero fok fev dt sdt endepoch nbins es epochs sf w i :
  agn_band fok fev dt sdt endepoch nbins es epochs sf = Ok w ->
  nth_error epochs i = Some 0 -> nth_error w i = Some 0.
Proof.
  intros H Hi; unfold agn_band in H.
  destruct (as_num sf) as [s|e]; simpl in H; [|discriminate].
  unfold mk_spline in H.
  destruct (List.length (linspace _ _ _) <? 2)%nat eqn:Hlen; simpl in H; [discriminate|].
  destruct (negb _); simpl in H; [discriminate|].
  unfold call_spline_arr in H.
  destruct (mapE_nth _ _ _ i 0 H Hi) as [b [Hb Hc]]; rewrite Hb; f_equal.
  unfold call_spline in Hc; cbn [sp_kind sp_x sp_y] in Hc.
  rewrite linspace_length in Hlen.
  destruct (Z.to_nat (nbins + 1)) as [|[|m]] eqn:Hn; [discriminate|discriminate|].
  destruct (linspace_second endepoch m) as [xs'' Hx]; rewrite Hx in Hc.
  unfold interp1d_call in Hc.
  destruct (Rlt_dec 0 0) as [|_]; [lra|].
  destruct (Rlt_dec _ 0) as [|Hlast]; [discriminate|].
  assert (HE : 0 <= endepoch).
  { destruct (linspace_ends endepoch m) as [xs' [Hx' [Hne [Hl _]]]].
    rewrite Hx in Hx'.
    assert (Hxe : endepoch / INR (S m) :: xs'' = xs') by exact (f_equal (@tl R) Hx').
    rewrite Hxe, Hl in Hlast; lra. }
  cbn [interp_seg] in Hc.
  destruct (agn_walk dt sdt s es 0) as [|y1 ys]; [discriminate|].
  destruct (Rle_dec 0 (endepoch / INR (S m))) as [_|Hn'].
  - cbv iota beta in Hc; injection Hc as <-; unfold Rdiv; ring.
  - exfalso; apply Hn'; unfold Rdiv; apply Rmult_le_pos; [exact HE|left; apply Rinv_0_lt_compat, lt_0_INR; lia].
Qed.

(** A successful [applyAgn] gives offset exactly [0] in every band at an
    epoch equal to [t0_mjd]: the walk starts at zero. *)
Theorem applyAgn_zero_at_t0 fok fev rt rs rn params expmjd (st : state rt) d toff i :
  fst (applyAgn fok fev rt rs rn params expmjd st) = Ok d ->
  get_float params "t0_mjd" = Ok toff -> nth_error expmjd i = Some toff ->
  forall b w, Dict.get b d = Some w -> nth_error w i = Some 0.
Proof.
  intros Hd Ht Hi b w Hb; destruct (applyAgn fok fev rt rs rn params expmjd st) as [r st'] eqn:H.
  simpl in Hd; subst r; unfold applyAgn in H; inv_run.
  match goal with
  | H : Dict.mapE _ _ = Ok d |- _ => destruct (dict_mapE_get_inv _ _ _ b w H Hb) as [vb [_ Hv]]
  end.
  apply (agn_band_zero _ _ _ _ _ _ _ _ _ _ _ Hv).
  rewrite nth_error_map, Hi; simpl.
  match goal with H : get_float params "t0_mjd" = Ok ?t |- _ => rewrite Ht in H; injection H as -> end.
  f_equal; ring.
Qed.

(** * Examples at concrete inputs *)

(** Run the model on concrete data, keeping real-number operations folded. *)
Ltac run_model :=
  lazy -[Rplus Rmult Ropp Rinv Rminus Rdiv IZR INR up Rlt_dec Rle_dec Req_EM_T
         Rmin Rmax exp ln sqrt cos];
  reflexivity.

Lemma stdperiodic_phase_wraparound_witness :
  exists sp P st1,
    get_str demo_params "filename" = Ok "rr.dat"%string /\
    load_template demo_ok unit "rr.dat" None true (Some IUS) (demo_state true)
      = (Ok (sp, P), st1) /\
    ((forall e, 0 <= phase e P < 1) /\
     applyStdPeriodic demo_ok demo_eval unit demo_params "filename" "tStartMjd" None true
       (Some IUS) (map (fun e => e + IZR 3 * P) [1/10; 7]) (demo_state true)
     = applyStdPeriodic demo_ok demo_eval unit demo_params "filename" "tStartMjd" None true
       (Some IUS) [1/10; 7] (demo_state true)).
Proof.
  do 3 eexists; split; [reflexivity|]; split; [run_model|].
  eapply stdperiodic_phase_wraparound; run_model.
Defined.

Lemma stdperiodic_inferred_period_witness :
  let res := applyStdPeriodic demo_ok demo_eval unit demo_params "filename" "tStartMjd" None
               true (Some IUS) [1/10; 7] (demo_state true) in
  let r := match fst res with Ok r => r | Err _ => [] end in
  get_str demo_params "filename" = Ok "rr.dat"%string /\
  get_float demo_params "tStartMjd" = Ok 0 /\
  Dict.get "rr.dat" (lc_cache (demo_state true)) = None /\
  Dict.get "rr.dat" (disk (demo_state true)) = Some demo_template /\
  nth_error demo_template 0 = Some [0; 1/4; 1/2; 3/4] /\
  res = (Ok r, snd res) /\
  (let P := last [1/4; 1/2; 3/4] 0 + (1/4 - 0) in
   exists sp,
     build_splines demo_ok (Some IUS) (map (fun x => x / P) [0; 1/4; 1/2; 3/4]) demo_template
       = Ok sp /\
     Dict.mapE (fun s => call_spline_arr demo_eval s (map (fun e => phase (e - 0) P) [1/10; 7])) sp
       = Ok r).
Proof.
  intros res r.
  assert (Hrun : res = (Ok r, snd res)) by (subst res r; run_model).
  do 5 (split; [reflexivity|]). split; [exact Hrun|].
  exact (stdperiodic_inferred_period demo_ok demo_eval unit demo_params "filename" "tStartMjd"
           true (Some IUS) [1/10; 7] (demo_state true) (snd res) "rr.dat" 0 demo_template
           0 (1/4) [1/2; 3/4] r eq_refl eq_refl eq_refl eq_refl eq_refl Hrun).
Defined.

(** C1 counterexample: for the template with time axis [1, 2, 3] the inferred
    period is [3 + (2 - 1) = 4], not the span-plus-step [(3 - 1) + (2 - 1) = 3]. *)
Lemma stdperiodic_period_span_counterexample :
  exists sp st',
    load_template demo_ok unit "late.dat" None true None (demo_state true)
      = (Ok (sp, 3 + (2 - 1)), st') /\
    3 + (2 - 1) <> (3 - 1) + (2 - 1).
Proof.
  do 2 eexists; split; [run_model | lra].
Qed.

Lemma stdperiodic_cache_reuse_witness :
  let st := demo_state true in
  let lt := load_template demo_ok unit "rr.dat" None true (Some IUS) st in
  let sp := match fst lt with Ok p => fst p | Err _ => [] end in
  let P := match fst lt with Ok p => snd p | Err _ => 0 end in
  let reqs := [("applyRRly"%string, late_params, [1/2]);
               ("applyMicrolens"%string, demo_lens_params, [1; 2])] in
  let st2 := run_requests demo_ok demo_eval unit demo_seed demo_normal reqs (snd lt) in
  do_cache st = true /\
  lt = (Ok (sp, P), snd lt) /\
  get_str demo_params "filename" = Ok "rr.dat"%string /\
  get_float demo_params "tStartMjd" = Ok 0 /\
  load_template demo_ok unit "rr.dat" (Some 5) false None st2 = (Ok (sp, P), st2) /\
  applyStdPeriodic demo_ok demo_eval unit demo_params "filename" "tStartMjd" (Some 5) false
    None [1/10] st2 =
    (Dict.mapE (fun s => call_spline_arr demo_eval s (map (fun e => phase (e - 0) P) [1/10])) sp,
     st2).
Proof.
  intros st lt sp P reqs st2.
  assert (Hl : lt = (Ok (sp, P), snd lt)) by (subst st lt sp P; run_model).
  do 4 (split; [first [exact Hl | reflexivity]|]).
  exact (proj1 (stdperiodic_cache_reuse demo_ok demo_eval unit demo_seed demo_normal)
           st (snd lt) "rr.dat"%string None true (Some IUS) sp P reqs demo_params "filename"%string
           "tStartMjd"%string (Some 5) false None [1/10] 0 eq_refl Hl eq_refl eq_refl).
Defined.

Lemma evaluators_six_bands_witness :
  let res := applyMicrolens unit demo_lens_params
               [1; 2] (demo_state false) in
  let d := match fst res with Ok d => d | Err _ => [] end in
  Dict.get "applyMicrolens" (variabilityMethods demo_ok demo_eval unit demo_seed demo_normal)
    = Some (applyMicrolens unit) /\
  res = (Ok d, snd res) /\
  six_bands 2 d.
Proof.
  intros res d.
  assert (Hrun : res = (Ok d, snd res)) by (subst res d; run_model).
  split; [reflexivity|]; split; [exact Hrun|].
  exact (evaluators_six_bands demo_ok demo_eval unit demo_seed demo_normal "applyMicrolens"%string
           _ demo_lens_params [1; 2] (demo_state false) (snd res) d
           (reach_init _ _ _ _ _ false demo_files tt) eq_refl Hrun).
Defined.

Lemma applyAgn_deterministic_witness :
  let p1 := [("t0_mjd", PyNum 0); ("seed", PyInt 3); ("agn_sfu", PyNum 1);
             ("agn_sfg", PyNum 1); ("agn_sfr", PyNum 1); ("agn_sfi", PyNum 1);
             ("agn_sfz", PyNum 1); ("agn_sfy", PyNum 1); ("agn_tau", PyNum 100)]%string in
  let p2 := (("varMethodName", PyStr "applyAgn") :: p1)%string in
  (forall k, In k agn_param_keys -> Dict.get k p1 = Dict.get k p2) /\
  fst (applyAgn demo_ok demo_eval Z (fun z => z) (fun g => (IZR g, (g + 1)%Z)) p1 [1; 2]
         (initializeVariability Z true [] 5%Z)) =
  fst (applyAgn demo_ok demo_eval Z (fun z => z) (fun g => (IZR g, (g + 1)%Z)) p2 [1; 2]
         (initializeVariability Z false demo_files 7%Z)).
Proof.
  intros p1 p2.
  assert (Hk : forall k, In k agn_param_keys -> Dict.get k p1 = Dict.get k p2).
  { intros k Hin; unfold agn_param_keys in Hin; simpl in Hin.
    repeat (destruct Hin as [<-|Hin]; [reflexivity|]); destruct Hin. }
  split; [exact Hk|].
  exact (applyAgn_deterministic demo_ok demo_eval Z (fun z => z) (fun g => (IZR g, (g + 1)%Z))
           p1 p2 [1; 2] _ _ Hk).
Defined.

Lemma applyAgn_epoch_check_witness :
  Dict.get "t0_mjd" (agn_demo_params 100) = Some (PyNum 0) /\
  Dict.get "seed" (agn_demo_params 100) = Some (PyInt 3) /\
  Dict.get "agn_tau" (agn_demo_params 100) = Some (PyNum 100) /\
  (forall k, In k ["agn_sfu"; "agn_sfg"; "agn_sfr"; "agn_sfi"; "agn_sfz"; "agn_sfy"]%string ->
     exists s, Dict.get k (agn_demo_params 100) = Some (PyNum s)) /\
  [0] <> [] /\
  (0 < 100 /\ (0 <= 3 < 4294967296)%Z /\ (forall e, In e [0] -> e = 0)) /\
  fst (applyAgn demo_ok demo_eval unit demo_seed demo_normal (agn_demo_params 100) [0]
         (demo_state false)) = Err ValueError.
Proof.
  assert (Hsf : forall k, In k ["agn_sfu"; "agn_sfg"; "agn_sfr"; "agn_sfi"; "agn_sfz";
                                "agn_sfy"]%string ->
                  exists s, Dict.get k (agn_demo_params 100) = Some (PyNum s)).
  { intros k Hk; simpl in Hk.
    repeat (destruct Hk as [<-|Hk]; [eexists; reflexivity|]); destruct Hk. }
  assert (Hne : [0] <> @nil R) by discriminate.
  assert (Htp : (0 : R) < 100) by lra.
  assert (Hsd : (0 <= 3 < 4294967296)%Z) by lia.
  assert (Hall : forall e : R, In e [0] -> e = 0) by (intros e [<-|[]]; reflexivity).
  do 3 (split; [reflexivity|]); split; [exact Hsf|]; split; [exact Hne|].
  split; [split; [exact Htp|split; [exact Hsd|exact Hall]]|].
  exact (proj2 (proj2 (applyAgn_epoch_check demo_ok demo_eval unit demo_seed demo_normal
           (agn_demo_params 100) [0] (demo_state false) 0 100 3 eq_refl eq_refl eq_refl
           Hsf Hne)) Htp Hsd Hall).
Defined.

(** Two scale lengths after the only burst start, [adds = -exp(-1)]. *)
Lemma amcvn_far_adds : amcvn_adds amcvn_far_params 0 10 [3852.5] = Ok [- exp (-1)].
Proof.
  unfold amcvn_adds.
  replace (get_num amcvn_far_params "burst_freq") with (Ok 3652.5 : result R) by reflexivity.
  cbn [rbind]; destruct (Req_EM_T 3652.5 0) as [E|_]; [lra|].
  replace (10 * 365.25 / 3652.5) with (IZR 1) by lra; rewrite ceilZ_IZR.
  unfold linspace_f, trunc; destruct (Rlt_dec (IZR 1) 0) as [E|_]; [lra|].
  destruct (Rle_dec 0 (IZR 1)) as [_|E]; [|lra]; rewrite floorZ_IZR; cbn [rbind linspace Z.to_nat].
  replace (get_num amcvn_far_params "burst_scale") with (Ok 100 : result R) by reflexivity.
  replace (get_num amcvn_far_params "amp_burst") with (Ok 1 : result R) by reflexivity.
  change (Pos.to_nat 1) with 1%nat; cbn [linspace].
  unfold burst_adds, burst_pulse; cbn [rbind fold_left map vsub combine fst snd].
  assert (Htmp : exp (-1 * (3852.5 - (0 + 3652.5)) / 100) / exp (-1) = exp (-1)).
  { replace (-1 * (3852.5 - (0 + 3652.5)) / 100) with (-1 + -1) by lra.
    rewrite exp_plus; field; apply Rgt_not_eq, exp_pos. }
  rewrite Htmp.
  destruct (Rlt_dec (exp (-1)) 1) as [_|E].
  - do 3 f_equal; ring.
  - exfalso; apply E; rewrite <- exp_0; apply exp_increasing; lra.
Qed.

Lemma exp_m1_lt_half : exp (-1) < 1/2.
Proof.
  pose proof (exp_ineq1 1 ltac:(lra)) as H1.
  assert (E : exp (-1) * exp 1 = 1) by (rewrite <- exp_plus; replace (-1 + 1) with 0 by ring; exact exp_0).
  pose proof (exp_pos (-1)); nra.
Qed.

Lemma amcvn_bands_share_excess_witness :
  exists d st', applyAmcvn unit amcvn_far_params [3852.5] (demo_state false) = (Ok d, st') /\
    amcvn_adds amcvn_far_params 0 10 [3852.5] = Ok [- exp (-1)] /\
    Dict.get "z" d = Some [cos 3852.5 + 6 * - exp (-1) + 7/2] /\
    cos 3852.5 + 6 * - exp (-1) + 7/2 <> cos 3852.5 + - exp (-1).
Proof.
  assert (Hm : pymin [- exp (-1)] = Ok (- exp (-1))) by reflexivity.
  assert (Hrun : exists d st',
            applyAmcvn unit amcvn_far_params [3852.5] (demo_state false) = (Ok d, st')).
  { do 2 eexists; unfold applyAmcvn, sbind, lift, sret; cbv zeta.
    replace (get_num amcvn_far_params "amplitude") with (Ok 1 : result R) by reflexivity.
    replace (get_num amcvn_far_params "t0") with (Ok 0 : result R) by reflexivity.
    replace (get_num amcvn_far_params "period") with (Ok 1 : result R) by reflexivity.
    replace (getitem amcvn_far_params "does_burst") with (Ok (PyBool true)) by reflexivity.
    replace (get_num amcvn_far_params "color_excess_during_burst")
      with (Ok 1 : result R) by reflexivity.
    cbv beta iota; change (truthy (PyBool true)) with true; cbv beta iota.
    rewrite amcvn_far_adds; cbv beta iota; rewrite Hm; reflexivity. }
  destruct Hrun as [d [st' Hrun]].
  destruct (amcvn_bands_share_excess unit amcvn_far_params [3852.5] (demo_state false) st' d
              (PyBool true) 1 0 1 [- exp (-1)] 1 (- exp (-1)) Hrun eq_refl eq_refl
              eq_refl eq_refl eq_refl amcvn_far_adds eq_refl Hm) as [y [Hd [L N]]].
  exists d, st'; split; [exact Hrun|]; split; [exact amcvn_far_adds|].
  pose proof exp_m1_lt_half; pose proof (exp_pos (-1)).
  split; [|lra].
  destruct y as [|y0 [|y1 y]]; simpl in L; try lia.
  specialize (N 0%nat ltac:(simpl; lia)); simpl in N.
  rewrite Hd; simpl; do 3 f_equal; rewrite N.
  replace ((3852.5 - 0) / 1) with 3852.5 by lra.
  field; lra.
Defined.

Lemma bh_microlens_boundary_witness :
  get_str bh_params "filename" = Ok "bh.dat"%string /\
  get_float bh_params "t0" = Ok 0 /\
  Dict.get "bh.dat" (disk (demo_state false)) = Some bh_template /\
  nth_error bh_template 0 = Some [1; 2; 3] /\
  nth_error bh_template 1 = Some [2; 4; 2] /\
  (2 <= List.length [1; 2; 3])%nat /\
  demo_ok IUS (map (fun x => x * 365) [1; 2; 3]) [2; 4; 2] = true /\
  (let t' := map (fun x => x * 365) [1; 2; 3] in
   let minage := hd 0 t' in
   let maxage := last t' 0 in
   exists v st',
     applyBHMicrolens demo_ok demo_eval unit bh_params [100; 500; 2000] (demo_state false)
       = (Ok (all_bands v), st') /\
     Forall2 (fun e dm =>
       ((e - 0 < minage \/ maxage < e - 0) -> dm = 0) /\
       (minage <= e - 0 <= maxage -> dm = -2.5 * ln (demo_eval IUS t' [2; 4; 2] (e - 0))))
       [100; 500; 2000] v).
Proof.
  assert (H2 : (2 <= List.length [1; 2; 3])%nat) by (simpl; lia).
  do 6 (split; [first [reflexivity | exact H2]|]); split; [reflexivity|].
  exact (bh_microlens_boundary demo_ok demo_eval unit bh_params [100; 500; 2000]
           (demo_state false) "bh.dat" 0 bh_template [1; 2; 3] [2; 4; 2]
           eq_refl eq_refl eq_refl eq_refl eq_refl H2 eq_refl).
Defined.

Lemma microlens_symmetry_peak_witness :
  get_num demo_lens_params "t0" = Ok 0 /\ get_num demo_lens_params "umin" = Ok 1 /\
  get_num demo_lens_params "that" = Ok 10 /\ (1 : R) <> 0 /\ (10 : R) <> 0 /\
  ((forall t, lens_u 1 10 0 <= lens_u 1 10 t) /\
   (forall rt (st : state rt) ds,
      applyMicrolens rt demo_lens_params (map (fun d => 0 + d) ds) st
        = applyMicrolens rt demo_lens_params (map (fun d => 0 - d) ds) st /\
      applyMicrolensing rt demo_lens_params (map (fun d => 0 + d) ds) st
        = applyMicrolensing rt demo_lens_params (map (fun d => 0 - d) ds) st) /\
   (forall rt (st : state rt) e, exists x y,
      applyMicrolens rt demo_lens_params [0; e] st = (Ok (all_bands [x; y]), st) /\ x <= y) /\
   (forall rt (st : state rt) e, exists x y,
      applyMicrolensing rt demo_lens_params [0; e] st = (Ok (all_bands [x; y]), st) /\ x <= y)).
Proof.
  assert (H1 : (1 : R) <> 0) by lra; assert (H10 : (10 : R) <> 0) by lra.
  do 3 (split; [reflexivity|]); split; [exact H1|]; split; [exact H10|].
  exact (microlens_symmetry_peak demo_lens_params 0 1 10 eq_refl eq_refl eq_refl H1 H10).
Defined.

Lemma amcvn_burst_min_zero_witness :
  get_num amcvn_burst_params "burst_freq" = Ok 100 /\ 0 < 100 <= 10 * 365.25 /\
  get_num amcvn_burst_params "burst_scale" = Ok 100 /\ 0 < 100 /\
  get_num amcvn_burst_params "amp_burst" = Ok 1 /\
  Forall (fun e => e <= 0 + 100 + 100) [0] /\ [0] <> @nil R /\
  (amcvn_adds amcvn_burst_params 0 10 [0] = Ok (map (fun _ => 0) [0]) /\
   pymin (map (fun _ => 0) [0]) = Ok 0).
Proof.
  assert (Hfr : 0 < 100 <= 10 * 365.25) by lra; assert (Hsp : (0 : R) < 100) by lra.
  assert (He : Forall (fun e => e <= 0 + 100 + 100) [0]) by (constructor; [lra|constructor]).
  assert (Hne : [0] <> @nil R) by discriminate.
  split; [reflexivity|]; split; [exact Hfr|]; split; [reflexivity|]; split; [exact Hsp|].
  split; [reflexivity|]; split; [exact He|]; split; [exact Hne|].
  exact (amcvn_burst_min_zero amcvn_burst_params 0 100 100 1 [0] eq_refl Hfr eq_refl Hsp
           eq_refl He Hne).
Defined.

Ltac run_open :=
  lazy -[Rplus Rmult Ropp Rinv Rminus Rdiv IZR INR up Rlt_dec Rle_dec Req_EM_T
         exp ln sqrt cos ceilZ].

Ltac split_decisions :=
  repeat match goal with
  | |- context [?d] =>
      match d with
      | Rlt_dec ?a ?b => idtac | Rle_dec ?a ?b => idtac | Req_EM_T ?a ?b => idtac
      end;
      lazymatch d with
      | context [match _ with _ => _ end] => fail
      | _ => destruct d; try (exfalso; cbn [INR] in *; lra)
      end
  end.

Lemma agn_demo_run :
  exists d, fst (applyAgn demo_ok demo_eval unit demo_seed demo_normal (agn_demo_params 100)
                   [0; 2] (demo_state false)) = Ok d.
Proof.
  run_open; split_decisions.
  all: assert (Hc : ceilZ ((2 - 0) / (100 / 100)) = 2%Z)
         by (replace ((2 - 0) / (100 / 100)) with (IZR 2) by (simpl; field); apply ceilZ_IZR).
  all: rewrite Hc in *.
  all: try (exfalso; simpl in *; lra).
  all: run_open; split_decisions.
  all: eexists; reflexivity.
Qed.

Lemma microlens_offsets_sign_witness :
  get_num wide_lens_params "t0" = Ok 0 /\ get_num wide_lens_params "umin" = Ok 2 /\
  get_num wide_lens_params "that" = Ok 10 /\ (2 : R) <> 0 /\ (10 : R) <> 0 /\ 2 <= Rabs 2 /\
  ((exists v, applyMicrolens unit wide_lens_params [0; 5] (demo_state false)
                = (Ok (all_bands v), demo_state false) /\ Forall (fun x => x < 0) v) /\
   (2 <= Rabs 2 ->
    exists v, applyMicrolensing unit wide_lens_params [0; 5] (demo_state false)
                = (Ok (all_bands v), demo_state false) /\ Forall (fun x => 0 < x) v)).
Proof.
  assert (H2 : (2 : R) <> 0) by lra; assert (H10 : (10 : R) <> 0) by lra.
  assert (Ha : 2 <= Rabs 2) by (rewrite Rabs_pos_eq; lra).
  do 3 (split; [reflexivity|]); split; [exact H2|]; split; [exact H10|]; split; [exact Ha|].
  exact (microlens_offsets_sign unit wide_lens_params 0 2 10 [0; 5] (demo_state false)
           eq_refl eq_refl eq_refl H2 H10).
Defined.

Lemma agn_bands_scaled_witness :
  exists d,
    fst (applyAgn demo_ok demo_eval unit demo_seed demo_normal (agn_demo_params 100) [0; 2]
           (demo_state false)) = Ok d /\
    exists w, forall b k v s,
      In (b, k) [("u", "agn_sfu"); ("g", "agn_sfg"); ("r", "agn_sfr");
                 ("i", "agn_sfi"); ("z", "agn_sfz"); ("y", "agn_sfy")]%string ->
      getitem (agn_demo_params 100) k = Ok v -> as_num v = Ok s ->
      Dict.get b d = Some (map (fun x => s * x) w).
Proof.
  destruct agn_demo_run as [d Hd]; exists d; split; [exact Hd|].
  exact (agn_bands_scaled demo_ok demo_eval unit demo_seed demo_normal (agn_demo_params 100)
           [0; 2] (demo_state false) d Hd).
Defined.

Lemma applyAgn_zero_at_t0_witness :
  exists d,
    fst (applyAgn demo_ok demo_eval unit demo_seed demo_normal (agn_demo_params 100) [0; 2]
           (demo_state false)) = Ok d /\
    get_float (agn_demo_params 100) "t0_mjd" = Ok 0 /\ nth_error [0; 2] 0 = Some 0 /\
    (forall b w, Dict.get b d = Some w -> nth_error w 0 = Some 0).
Proof.
  destruct agn_demo_run as [d Hd]; exists d; split; [exact Hd|].
  do 2 (split; [reflexivity|]).
  exact (applyAgn_zero_at_t0 demo_ok demo_eval unit demo_seed demo_normal (agn_demo_params 100)
           [0; 2] (demo_state false) d 0 0 Hd eq_refl eq_refl).
Defined.

